(** * filemail: the Drive report pipeline of filemail.py and fm2.py

    A shallow embedding of the two scripts: the paginated fetcher
    [fetch_files], the duplicate grouper [process_duplicate_files], the
    report built by [main] and the dispatcher [send_email].

    The Drive and Gmail services are external.  Each is modelled by the
    sequence of answers it gives to the successive requests of a run; the
    requests issued and the lines logged are recorded in the [world]. *)

From Stdlib Require Import ZArith List String Ascii Bool Lia Permutation.
From Stdlib Require Import DecimalString.
Import ListNotations.

Local Open Scope string_scope.
Local Open Scope Z_scope.
Local Open Scope list_scope.

(** ** Data model *)

(** A file resource as the listing returns it: a dict in the source.
    [id], [name] and [modifiedTime] are always there; [size], [parents]
    and [webViewLink] may be missing from the dict. *)
Module File.
Record t : Type := mk {
  id : string;
  name : string;
  size : option Z;
  modifiedTime : string;
  parents : option (list string);
  webViewLink : option string
}.
End File.

(** The exceptions the modelled code can raise on a dict or a list. *)
Inductive exn : Type :=
| KeyError (key : string)
| IndexError.

Inductive result (A : Type) : Type :=
| Ok (a : A)
| Raise (e : exn).
Arguments Ok {A} a.
Arguments Raise {A} e.

Definition bind {A B : Type} (m : result A) (k : A -> result B) : result B :=
  match m with
  | Ok a => k a
  | Raise e => Raise e
  end.

Notation "x <- m ;; k" := (bind m (fun x => k))
  (at level 100, m at next level, right associativity).

(** [dict[key]] on an optional field. *)
Definition getitem {A : Type} (key : string) (field : option A) : result A :=
  match field with
  | Some v => Ok v
  | None => Raise (KeyError key)
  end.

(** [dict.get(key, default)]. *)
Definition get {A : Type} (field : option A) (default : A) : A :=
  match field with
  | Some v => v
  | None => default
  end.

(** [str(n)] for a Python int. *)
Definition str (n : Z) : string := NilZero.string_of_int (Z.to_int n).

(** [''.join(parts)]. *)
Definition join (parts : list string) : string := String.concat "" parts.

(** An f-string is written as the join of its parts. *)
Notation "'f{' x ; .. ; y '}'" := (join (cons x .. (cons y nil) ..))
  (at level 0, x at level 99, y at level 99).

(** ** The external services *)

(** The body of a [files().list] answer. *)
Record response : Type := mkResponse {
  files : option (list File.t);
  nextPageToken : option string
}.

(** What [execute()] does on a listing request: it returns the answer or
    raises [HttpError], the one exception [fetch_page] catches. *)
Inductive page_result : Type :=
| Page (r : response)
| HttpError (error : string).

Record list_request : Type := mkListRequest {
  q : string;
  spaces : string;
  fields : string;
  pageToken : option string;
  pageSize : Z
}.

(** What [execute()] does on a send request: the sent message's id, or
    [HttpError]. *)
Inductive send_result : Type :=
| Sent (message_id : string)
| SendError (error : string).

(** The message handed to [messages().send]: an HTML-typed text with its
    headers (its MIME serialisation and base64 coding are the library's). *)
Record message : Type := mkMessage {
  to : string;
  subject : string;
  subtype : string;
  body : string
}.

Inductive log_record : Type :=
| INFO (msg : string)
| ERROR (msg : string)
| PRINT (msg : string).

(** The state a run threads: the answers the services have yet to give, the
    requests issued so far, and the output so far. *)
Record world : Type := mkWorld {
  drive : list page_result;
  drive_calls : list list_request;
  gmail : list send_result;
  gmail_calls : list message;
  log : list log_record
}.

(** A service whose scripted answers are used up answers every further
    request with this error. *)
Definition unavailable : string := "service unavailable".

(** Truth value of an optional int or string, as [if x] and [not x] see it. *)
Definition truthy_int (x : option Z) : bool :=
  match x with
  | Some n => negb (n =? 0)
  | None => false
  end.

Definition truthy_str (x : option string) : bool :=
  match x with
  | Some s => negb (String.eqb s "")
  | None => false
  end.

(** [size_filter and int(file.get('size', 0)) <= size_filter]: the test
    that makes the loop [continue].  Sizes are integers in the data model,
    on which [int] is the identity. *)
Definition skips (size_filter : option Z) (file : File.t) : bool :=
  match size_filter with
  | Some threshold =>
      truthy_int size_filter && (get (File.size file) 0 <=? threshold)
  | None => false
  end.

(** How the [for] loop over a page is left: it ran to its end, or it
    executed [return files]. *)
Inductive flow (S : Type) : Type :=
| Next (s : S)
| Return (s : S).
Arguments Next {S} s.
Arguments Return {S} s.

(** ** Pieces shared by the two reports *)

Definition nl : string := String (ascii_of_nat 10) EmptyString.

(** The lines of a triple-quoted literal. *)
Definition lines (ls : list string) : string := String.concat nl ls.

(** [''.join(f(x) for x in xs)] where evaluating [f(x)] may raise: the
    items are evaluated in order and the first exception ends the join. *)
Fixpoint join_for {A : Type} (f : A -> result string) (xs : list A)
  : result string :=
  match xs with
  | [] => Ok ""
  | x :: xs' =>
      s <- f x ;;
      rest <- join_for f xs' ;;
      Ok f{s; rest}
  end.

(** [xs[0]]. *)
Definition first {A : Type} (xs : list A) : result A :=
  match xs with
  | x :: _ => Ok x
  | [] => Raise IndexError
  end.

(** The item of the large-files list, the same f-string in both scripts. *)
Definition large_file_li (file : File.t) : result string :=
  let name := File.name file in
  size <- getitem "size" (File.size file) ;;
  Ok f{"<li>"; name; " ("; str size; " bytes, last modified ";
       File.modifiedTime file; ")</li>"}.

(** ** filemail.py *)
Module filemail.

Definition default_limit : Z := 1000.

Definition list_fields : string :=
  "nextPageToken, files(id, name, size, modifiedTime, parents)".

(** The [for file in response.get('files', [])] loop, lines 66-74, on the
    state [(files, count, log)]. *)
Fixpoint for_files (size_filter : option Z) (limit : Z)
    (page : list File.t) (fs : list File.t) (count : Z)
    (lg : list log_record) : flow (list File.t * Z * list log_record) :=
  match page with
  | [] => Next (fs, count, lg)
  | file :: page' =>
      if skips size_filter file then
        for_files size_filter limit page' fs count lg
      else
        let fs := fs ++ [file] in
        let count := count + 1 in
        let lg :=
          if count mod 100 =? 0
          then lg ++ [INFO f{"Fetched "; str count; " files so far..."}]
          else lg in
        if count >=? limit then Return (fs, count, lg)
        else for_files size_filter limit page' fs count lg
  end.

(** [fetch_page], lines 48-60: one request, answered by [answer]; [None]
    after a logged [HttpError]. *)
Definition fetch_page (query : string) (page_token : option string)
    (answer : page_result) (calls : list list_request) (lg : list log_record)
  : option response * list list_request * list log_record :=
  let request := mkListRequest query "drive" list_fields page_token 1000 in
  match answer with
  | Page r => (Some r, calls ++ [request], lg)
  | HttpError error =>
      (None, calls ++ [request],
       lg ++ [ERROR f{"An error occurred while fetching files: "; error}])
  end.

(** Lines 79-80, reached by [break]. *)
Definition after_loop (fs : list File.t) (count : Z)
    (script : list page_result) (calls : list list_request)
    (lg : list log_record)
  : list File.t * list page_result * list list_request * list log_record :=
  (fs, script, calls, lg ++ [INFO f{"Total files fetched: "; str count}]).

(** The [while True] loop, lines 62-77.  Every iteration takes one answer
    from the script, on which the recursion goes; on a script that is used
    up the request fails and the loop breaks. *)
Fixpoint while_true (query : string) (size_filter : option Z) (limit : Z)
    (script : list page_result) (page_token : option string)
    (fs : list File.t) (count : Z)
    (calls : list list_request) (lg : list log_record)
  : list File.t * list page_result * list list_request * list log_record :=
  match script with
  | [] =>
      let '(_, calls, lg) :=
        fetch_page query page_token (HttpError unavailable) calls lg in
      after_loop fs count [] calls lg
  | answer :: script' =>
      match fetch_page query page_token answer calls lg with
      | (None, calls, lg) => after_loop fs count script' calls lg
      | (Some r, calls, lg) =>
          match for_files size_filter limit (get (files r) []) fs count lg with
          | Return (fs, _, lg) => (fs, script', calls, lg)
          | Next (fs, count, lg) =>
              let page_token := nextPageToken r in
              if negb (truthy_str page_token)
              then after_loop fs count script' calls lg
              else while_true query size_filter limit script' page_token
                     fs count calls lg
          end
      end
  end.

Definition fetch_files (w : world) (query : string)
    (size_filter : option Z) (limit : option Z) : list File.t * world :=
  let limit := get limit default_limit in
  let '(fs, rest, calls, lg) :=
    while_true query size_filter limit (drive w) None [] 0
      (drive_calls w) (log w) in
  (fs, mkWorld rest calls (gmail w) (gmail_calls w) lg).

(** [send_email], lines 82-92: one request to the mail service, whose
    answer is the next of its script. *)
Definition send_email (w : world) (message_text recipient : string) : world :=
  let message := mkMessage recipient "Google Drive Report" "html" message_text in
  let '(answer, rest) :=
    match gmail w with
    | a :: rest => (a, rest)
    | [] => (SendError unavailable, [])
    end in
  let line :=
    match answer with
    | Sent message_id => INFO f{"Message Id: "; message_id}
    | SendError error =>
        ERROR f{"An error occurred while sending email: "; error}
    end in
  mkWorld (drive w) (drive_calls w) rest (gmail_calls w ++ [message])
    (log w ++ [line]).

(** The dict [file_groups]: keys [(name, size)] in insertion order. *)
Definition key : Type := string * Z.

Definition key_eqb (k1 k2 : key) : bool :=
  String.eqb (fst k1) (fst k2) && (snd k1 =? snd k2).

Definition groups : Type := list (key * list File.t).

(** [file_groups.setdefault(key, []).append(file)]. *)
Fixpoint setdefault_append (file_groups : groups) (k : key) (file : File.t)
  : groups :=
  match file_groups with
  | [] => [(k, [file])]
  | (k', members) :: rest =>
      if key_eqb k' k then (k', members ++ [file]) :: rest
      else (k', members) :: setdefault_append rest k file
  end.

(** The loop of [process_duplicate_files], lines 97-99. *)
Fixpoint group_loop (fs : list File.t) (file_groups : groups)
  : result groups :=
  match fs with
  | [] => Ok file_groups
  | file :: fs' =>
      let name := File.name file in
      size <- getitem "size" (File.size file) ;;
      group_loop fs' (setdefault_append file_groups (name, size) file)
  end.

Definition process_duplicate_files (fs : list File.t) : result groups :=
  group_loop fs [].

(** [len(files) > 1]. *)
Definition more_than_one (members : list File.t) : bool :=
  (1 <? Z.of_nat (List.length members)).

(** Line 130: the groups the caller keeps. *)
Definition duplicate_selection (file_groups : groups)
  : list (list File.t) :=
  filter more_than_one (map snd file_groups).

(** The items of the report, lines 144 and 148. *)
Definition old_doc_li (file : File.t) : result string :=
  Ok f{"<li>"; File.name file; " (last modified ";
       File.modifiedTime file; ")</li>"}.

Definition member_li (f : File.t) : result string :=
  parent <- first (get (File.parents f) ["unknown"]) ;;
  Ok f{"<li>ID: "; File.id f; " (parent folder: "; parent; ")</li>"}.

Definition group_li (entry : key * list File.t) : result string :=
  let '(k, members) := entry in
  inner <- join_for member_li members ;;
  Ok f{"<li>"; fst k; " ("; str (snd k); " bytes):<ul>"; inner;
       "</ul></li>"}.

(** The report, lines 134-152. *)
Definition report (large_files old_docs : list File.t) (file_groups : groups)
  : result string :=
  large <- join_for large_file_li large_files ;;
  docs <- join_for old_doc_li old_docs ;;
  dups <- join_for group_li
            (filter (fun entry => more_than_one (snd entry)) file_groups) ;;
  Ok (lines [
    "";
    "    <html>";
    "      <body>";
    "        <h1>Google Drive Report</h1>";
    "        <h2>Large Files (over 10MB) not modified for 12 months:</h2>";
    "        <ul>";
    f{"          "; large};
    "        </ul>";
    "        <h2>Google Docs not modified for 24 months:</h2>";
    "        <ul>";
    f{"          "; docs};
    "        </ul>";
    "        <h2>Duplicate Files (over 10MB):</h2>";
    "        <ul>";
    f{"          "; dups};
    "        </ul>";
    "      </body>";
    "    </html>";
    "    "]).

Definition info (w : world) (msg : string) : world :=
  mkWorld (drive w) (drive_calls w) (gmail w) (gmail_calls w)
    (log w ++ [INFO msg]).

Definition len (fs : list File.t) : Z := Z.of_nat (List.length fs).

(** [main], lines 102-157, from the two services on.  The two cut-off
    dates are the clock's, already in ISO format. *)
Definition main (w : world)
    (twelve_months_ago_str twenty_four_months_ago_str : string)
  : result world :=
  let large_files_query :=
    f{"(modifiedTime < '"; twelve_months_ago_str; "')"} in
  let w := info w "Fetching large files..." in
  let '(large_files, w) :=
    fetch_files w large_files_query (Some 10485760) None in
  let w := info w f{"Fetched "; str (len large_files); " large files."} in
  let old_docs_query :=
    f{"(mimeType='application/vnd.google-apps.document') and (modifiedTime < '";
      twenty_four_months_ago_str; "')"} in
  let w := info w "Fetching old Google Docs..." in
  let '(old_docs, w) := fetch_files w old_docs_query None None in
  let w := info w f{"Fetched "; str (len old_docs); " old Google Docs."} in
  let duplicate_files_query :=
    f{"(modifiedTime < '"; twelve_months_ago_str; "')"} in
  let w := info w "Fetching potential duplicate files..." in
  let '(duplicate_files_raw, w) :=
    fetch_files w duplicate_files_query (Some 10485760) None in
  file_groups <- process_duplicate_files duplicate_files_raw ;;
  let duplicate_files := duplicate_selection file_groups in
  let w := info w f{"Found "; str (Z.of_nat (List.length duplicate_files));
                     " groups of duplicate files."} in
  text <- report large_files old_docs file_groups ;;
  let recipient_email := "me@gmail.com" in
  let w := info w "Sending email report..." in
  let w := send_email w text recipient_email in
  Ok (info w "Email report sent successfully.").

End filemail.

(** ** fm2.py *)
Module fm2.

Definition default_limit : Z := 100.

Definition list_fields : string :=
  "nextPageToken, files(id, name, size, modifiedTime, parents, webViewLink)".

(** The [for] loop over a page, lines 63-69, on the state [(files, count)]. *)
Fixpoint for_files (size_filter : option Z) (limit : Z)
    (page : list File.t) (fs : list File.t) (count : Z)
  : flow (list File.t * Z) :=
  match page with
  | [] => Next (fs, count)
  | file :: page' =>
      if skips size_filter file then
        for_files size_filter limit page' fs count
      else
        let fs := fs ++ [file] in
        let count := count + 1 in
        if count >=? limit then Return (fs, count)
        else for_files size_filter limit page' fs count
  end.

(** [fetch_page], lines 45-57: the error is printed. *)
Definition fetch_page (query : string) (page_token : option string)
    (answer : page_result) (calls : list list_request) (lg : list log_record)
  : option response * list list_request * list log_record :=
  let request := mkListRequest query "drive" list_fields page_token 1000 in
  match answer with
  | Page r => (Some r, calls ++ [request], lg)
  | HttpError error =>
      (None, calls ++ [request],
       lg ++ [PRINT f{"An error occurred while fetching files: "; error}])
  end.

(** The [while True] loop and the final [return files], lines 59-74. *)
Fixpoint while_true (query : string) (size_filter : option Z) (limit : Z)
    (script : list page_result) (page_token : option string)
    (fs : list File.t) (count : Z)
    (calls : list list_request) (lg : list log_record)
  : list File.t * list page_result * list list_request * list log_record :=
  match script with
  | [] =>
      let '(_, calls, lg) :=
        fetch_page query page_token (HttpError unavailable) calls lg in
      (fs, [], calls, lg)
  | answer :: script' =>
      match fetch_page query page_token answer calls lg with
      | (None, calls, lg) => (fs, script', calls, lg)
      | (Some r, calls, lg) =>
          match for_files size_filter limit (get (files r) []) fs count with
          | Return (fs, _) => (fs, script', calls, lg)
          | Next (fs, count) =>
              let page_token := nextPageToken r in
              if negb (truthy_str page_token)
              then (fs, script', calls, lg)
              else while_true query size_filter limit script' page_token
                     fs count calls lg
          end
      end
  end.

Definition fetch_files (w : world) (query : string)
    (size_filter : option Z) (limit : option Z) : list File.t * world :=
  let limit := get limit default_limit in
  let '(fs, rest, calls, lg) :=
    while_true query size_filter limit (drive w) None [] 0
      (drive_calls w) (log w) in
  (fs, mkWorld rest calls (gmail w) (gmail_calls w) lg).

(** [send_email], lines 76-86. *)
Definition send_email (w : world) (message_text recipient : string) : world :=
  let message := mkMessage recipient "Google Drive Report" "html" message_text in
  let '(answer, rest) :=
    match gmail w with
    | a :: rest => (a, rest)
    | [] => (SendError unavailable, [])
    end in
  let line :=
    match answer with
    | Sent message_id => PRINT f{"Message Id: "; message_id}
    | SendError error =>
        PRINT f{"An error occurred while sending email: "; error}
    end in
  mkWorld (drive w) (drive_calls w) rest (gmail_calls w ++ [message])
    (log w ++ [line]).

(** The item of the old-documents list, line 119. *)
Definition old_doc_li (file : File.t) : result string :=
  link <- getitem "webViewLink" (File.webViewLink file) ;;
  Ok f{"<li><a href='"; link; "'>"; File.name file; "</a> (last modified ";
       File.modifiedTime file; ")</li>"}.

Definition blanks (n : nat) : string := join (repeat " " n).

(** The report, lines 108-123; line 113 ends in 56 blanks. *)
Definition report (large_files old_docs : list File.t) : result string :=
  large <- join_for large_file_li large_files ;;
  docs <- join_for old_doc_li old_docs ;;
  Ok (lines [
    "";
    "    <html>";
    "      <body>";
    "        <h1>Google Drive Report</h1>";
    "        <h2>Large Files (over 20MB) not modified for 12 months:</h2>";
    f{"        <h3>Limited to a fetch of 100 files </h3>"; blanks 56};
    "        <ul>";
    f{"          "; large};
    "        </ul>";
    "        <h2>Google Docs not modified for 24 months:</h2>";
    "        <ul>";
    f{"          "; docs};
    "        </ul>";
    "      </body>";
    "    </html>";
    "    "]).

Definition print (w : world) (msg : string) : world :=
  mkWorld (drive w) (drive_calls w) (gmail w) (gmail_calls w)
    (log w ++ [PRINT msg]).

(** [main], lines 88-127, from the two services on. *)
Definition main (w : world)
    (twelve_months_ago_str twenty_four_months_ago_str : string)
  : result world :=
  let large_files_query :=
    f{"modifiedTime < '"; twelve_months_ago_str; "'"} in
  let '(large_files, w) :=
    fetch_files w large_files_query (Some 20971520) None in
  let old_docs_query :=
    f{"mimeType='application/vnd.google-apps.document' and modifiedTime < '";
      twenty_four_months_ago_str; "'"} in
  let '(old_docs, w) := fetch_files w old_docs_query None None in
  text <- report large_files old_docs ;;
  let recipient_email := "danhathway@gmail.com" in
  let w := send_email w text recipient_email in
  Ok (print w "Email report sent successfully.").

End fm2.

(** ** authenticate, the same function in both scripts *)
Module auth.

(** What [authenticate] looks at in a credentials object, as the object
    shows it during the one call: [valid] and [expired] change with time,
    and nothing here relates what two calls see. *)
Record Credentials : Type := mkCredentials {
  token : string;
  valid : bool;
  expired : bool;
  refresh_token : option string
}.

(** What [authenticate] does outside the process. *)
Inductive step : Type :=
| Refreshed (creds : Credentials)
| LocalServer
| Dumped (creds : Credentials).

(** The surroundings of a call: the content of token.pickle ([None] when
    the file does not exist), what [creds.refresh] makes of a credentials
    object and what the consent flow yields ([None] when the call raises),
    and the steps taken so far. *)
Record env : Type := mkEnv {
  token_pickle : option Credentials;
  refresh : Credentials -> option Credentials;
  run_local_server : option Credentials;
  steps : list step
}.

(** [authenticate], lines 18-32 of filemail.py and 15-29 of fm2.py.  The
    result is [None] when a library call raised. *)
Definition authenticate (e : env) : option Credentials * env :=
  let creds := token_pickle e in
  let stale :=
    match creds with
    | None => true
    | Some c => negb (valid c)
    end in
  if stale then
    let refreshable :=
      match creds with
      | None => false
      | Some c => expired c && truthy_str (refresh_token c)
      end in
    let '(renewed, taken) :=
      match creds, refreshable with
      | Some c, true => (refresh e c, [Refreshed c])
      | _, _ => (run_local_server e, [LocalServer])
      end in
    match renewed with
    | Some creds =>
        (Some creds,
         mkEnv (Some creds) (refresh e) (run_local_server e)
           (steps e ++ taken ++ [Dumped creds]))
    | None =>
        (None,
         mkEnv (token_pickle e) (refresh e) (run_local_server e)
           (steps e ++ taken))
    end
  else (creds, e).

End auth.

(** ** What the fetcher computes *)

(** The records of a page: [response.get('files', [])]. *)
Definition page_files (r : response) : list File.t := get (files r) [].

(** The records of a page that the size test lets through. *)
Definition accepted (size_filter : option Z) (page : list File.t)
  : list File.t :=
  filter (fun file => negb (skips size_filter file)) page.

(** The records the listing delivers: those of the pages up to the first
    failed request or the first page without a continuation token. *)
Fixpoint served (script : list page_result) : list File.t :=
  match script with
  | Page r :: rest =>
      page_files r ++
      (if truthy_str (nextPageToken r) then served rest else [])
  | _ => []
  end.

(** The records of a run of pages. *)
Definition records (pages : list response) : list File.t :=
  flat_map page_files pages.

(** A page after which the loop goes on: its token is present and not
    empty. *)
Definition continues (r : response) : Prop :=
  truthy_str (nextPageToken r) = true.

(** How many records the loop may still take before [count >= limit]
    fires: the test comes after the append, so it is never less than one. *)
Definition room (limit count : Z) : nat := Z.to_nat (Z.max 1 (limit - count)).

(** A request without its [fields]: what the two scripts have in common. *)
Definition sans_fields (c : list_request) : string * string * option string * Z :=
  (q c, spaces c, pageToken c, pageSize c).

(** ** Vocabulary of the statements and sample data *)

(** The outcome of filemail's page loop without its log lines. *)
Definition drop_log (fl : flow (list File.t * Z * list log_record))
  : flow (list File.t * Z) :=
  match fl with
  | Next (fs, count, _) => Next (fs, count)
  | Return (fs, count, _) => Return (fs, count)
  end.

(** The records returned, the answers left and the requests issued, by one
    script and by the other. *)
Definition outcome_files {A B C : Type} (x : list File.t * A * B * C)
  : list File.t := fst (fst (fst x)).

Definition outcome_script {A B C : Type} (x : A * list page_result * B * C)
  : list page_result := snd (fst (fst x)).

Definition outcome_calls {A B C : Type} (x : A * B * list list_request * C)
  : list list_request := snd (fst x).

Definition outcome_log {A B C : Type} (x : A * B * C * list log_record)
  : list log_record := snd x.

(** A sample record and sample pages for the examples below. *)
Definition sample (id name : string) (size : option Z) : File.t :=
  File.mk id name size "2020-01-01T00:00:00.000Z" None None.

Definition sample_world (script : list page_result) : world :=
  mkWorld script [] [] [] [].

Definition page_one : response :=
  mkResponse (Some [sample "1" "a.bin" (Some 50); sample "2" "b.bin" (Some 7)])
    (Some "token-1").

Definition page_two : response :=
  mkResponse (Some [sample "3" "c.bin" (Some 90); sample "4" "d.bin" (Some 60)])
    (Some "token-2").

Definition page_three : response :=
  mkResponse (Some [sample "5" "e.bin" (Some 80)]) None.

(** [file] has the key [k]: its name and its size are those of [k]. *)
Definition has_key (k : filemail.key) (file : File.t) : bool :=
  match File.size file with
  | Some size => filemail.key_eqb (File.name file, size) k
  | None => false
  end.

(** [file_groups.get(k, [])]. *)
Fixpoint find_group (k : filemail.key) (file_groups : filemail.groups)
  : list File.t :=
  match file_groups with
  | [] => []
  | (k', members) :: rest =>
      if filemail.key_eqb k' k then members else find_group k rest
  end.

Definition keys (file_groups : filemail.groups) : list filemail.key :=
  map fst file_groups.

Definition values (file_groups : filemail.groups) : list (list File.t) :=
  map snd file_groups.

Definition report_docx (id : string) : File.t := sample id "Report.docx" (Some 5000).

Definition notes_txt (id : string) : File.t := sample id "Notes.txt" (Some 300).

(** [item] occurs in [doc]. *)
Definition contains (doc item : string) : Prop :=
  exists pre post : string, doc = (pre ++ item ++ post)%string.

(** The item of a member without a [parents] field. *)
Definition unknown_parent_li (f : File.t) : string :=
  f{"<li>ID: "; File.id f; " (parent folder: "; "unknown"; ")</li>"}.

Definition orphan : File.t :=
  File.mk "id-1" "movie.mkv" (Some 20000000) "2021-03-04T05:06:07.000Z" None None.

Definition housed : File.t :=
  File.mk "id-2" "movie.mkv" (Some 20000000) "2021-03-04T05:06:07.000Z"
    (Some ["folder-9"]) None.

Definition old_doc : File.t :=
  File.mk "id-3" "Minutes" None "2019-01-01T00:00:00.000Z" None
    (Some "https://docs.example/d/id-3").

(** [w] with another script for the mail service. *)
Definition set_gmail (w : world) (answers : list send_result) : world :=
  mkWorld (drive w) (drive_calls w) answers (gmail_calls w) (log w).

(** Whether a run comes to its end. *)
Definition completes (run : result world) : Prop :=
  exists w : world, run = Ok w.

(** The document a run hands to the mail service, or the exception that
    ends the run before. *)
Definition sent_document (run : result world) : result string :=
  match run with
  | Ok w => Ok (last (map body (gmail_calls w)) "")
  | Raise e => Raise e
  end.

(** ** Vocabulary for the requests and the log of a fetch *)

(** The request [fetch_page] issues for a page token. *)
Definition list_request_for (query fields : string) (tok : option string)
  : list_request :=
  mkListRequest query "drive" fields tok 1000.

(** The tokens sent while the loop goes through the pages [pre], the first
    request carrying [tok]. *)
Fixpoint page_tokens (tok : option string) (pre : list response)
  : list (option string) :=
  match pre with
  | [] => []
  | r :: pre' => tok :: page_tokens (nextPageToken r) pre'
  end.

(** The token in hand after the pages [pre]. *)
Fixpoint next_token (tok : option string) (pre : list response)
  : option string :=
  match pre with
  | [] => tok
  | r :: pre' => next_token (nextPageToken r) pre'
  end.

(** The progress lines of filemail.py while the count goes from [count]
    to [count + n]: one line at every multiple of 100. *)
Fixpoint progress (count : Z) (n : nat) : list log_record :=
  match n with
  | O => []
  | S n' =>
      (if (count + 1) mod 100 =? 0
       then [INFO f{"Fetched "; str (count + 1); " files so far..."}]
       else []) ++ progress (count + 1) n'
  end.

(** The last line of a fetch that left its loop by [break]. *)
Definition total_line (n : nat) : log_record :=
  INFO f{"Total files fetched: "; str (Z.of_nat n)}.

(** ** Vocabulary for the order of the groups *)

(** The key under which the grouper files a record that carries a size. *)
Definition file_key (file : File.t) : filemail.key :=
  (File.name file, get (File.size file) 0).



(** * Properties *)

(** [str] writes integers the way Python does. *)
Example str_zero : str 0 = "0".
Proof. reflexivity. Qed.

Example str_5000 : str 5000 = "5000".
Proof. reflexivity. Qed.

Example str_negative : str (-3) = "-3".
Proof. reflexivity. Qed.

(** ** The page loop *)

Lemma accepted_app (size_filter : option Z) (xs ys : list File.t) :
  accepted size_filter (xs ++ ys) =
  accepted size_filter xs ++ accepted size_filter ys.
Proof. apply filter_app. Qed.

Section FetchLemmas.

Variables (query : string) (size_filter : option Z) (limit : Z).

Lemma fm2_for_files_spec (page fs : list File.t) (count : Z) :
  fm2.for_files size_filter limit page fs count =
  let acc := accepted size_filter page in
  let k := room limit count in
  if (k <=? List.length acc)%nat
  then Return (fs ++ firstn k acc, count + Z.of_nat k)
  else Next (fs ++ acc, count + Z.of_nat (List.length acc)).
Proof.
  revert fs count.
  induction page as [|file page IH]; intros fs count; cbn zeta.
  - simpl. unfold room.
    destruct (Nat.leb_spec (Z.to_nat (Z.max 1 (limit - count))) 0) as [H|H].
    + exfalso. lia.
    + now rewrite app_nil_r, Z.add_0_r.
  - simpl. destruct (skips size_filter file) eqn:Hs; simpl.
    + apply IH.
    + rewrite IH; clear IH. cbn zeta.
      destruct (Z.geb_spec (count + 1) limit) as [Hge|Hlt].
      * assert (Hk : room limit count = 1%nat) by (unfold room; lia).
        rewrite Hk. simpl. reflexivity.
      * assert (Hk : room limit count = S (room limit (count + 1)))
          by (unfold room; lia).
        rewrite Hk. simpl.
        destruct (Nat.leb_spec (room limit (count + 1))
                    (List.length (accepted size_filter page))).
        -- rewrite <- app_assoc. simpl. f_equal. f_equal. lia.
        -- rewrite <- app_assoc. simpl. f_equal. f_equal. lia.
Qed.

Lemma for_files_agree (page fs : list File.t) (count : Z)
    (lg : list log_record) :
  drop_log (filemail.for_files size_filter limit page fs count lg) =
  fm2.for_files size_filter limit page fs count.
Proof.
  revert fs count lg.
  induction page as [|file page IH]; intros fs count lg; simpl.
  - reflexivity.
  - destruct (skips size_filter file); [apply IH|].
    destruct (count + 1 >=? limit); [reflexivity|apply IH].
Qed.

Lemma while_true_agree (script : list page_result) :
  forall (tok : option string) (fs : list File.t) (count : Z)
         (calls1 calls2 : list list_request) (lg1 lg2 : list log_record),
    map sans_fields calls1 = map sans_fields calls2 ->
    let a := filemail.while_true query size_filter limit script tok fs count
               calls1 lg1 in
    let b := fm2.while_true query size_filter limit script tok fs count
               calls2 lg2 in
    outcome_files a = outcome_files b /\
    outcome_script a = outcome_script b /\
    map sans_fields (outcome_calls a) = map sans_fields (outcome_calls b).
Proof.
  induction script as [|answer script IH]; intros tok fs count calls1 calls2
    lg1 lg2 Hcalls; cbn zeta.
  - simpl. repeat split. unfold outcome_calls. simpl.
    rewrite !map_app, Hcalls. reflexivity.
  - simpl. destruct answer as [r|error]; simpl.
    + pose proof (for_files_agree (get (files r) []) fs count lg1) as Hf.
      destruct (filemail.for_files size_filter limit (get (files r) []) fs
                  count lg1) as [[[fs1 c1] l1]|[[fs1 c1] l1]];
        simpl in Hf; rewrite <- Hf.
      * destruct (truthy_str (nextPageToken r)); simpl.
        -- apply IH. rewrite !map_app, Hcalls. reflexivity.
        -- repeat split. unfold outcome_calls. simpl.
           rewrite !map_app, Hcalls. reflexivity.
      * repeat split. unfold outcome_calls. simpl.
        rewrite !map_app, Hcalls. reflexivity.
    + repeat split. unfold outcome_calls. simpl.
      rewrite !map_app, Hcalls. reflexivity.
Qed.

(** The records [fm2.while_true] returns. *)
Lemma fm2_while_true_files (script : list page_result) :
  forall (tok : option string) (fs : list File.t) (count : Z)
         (calls : list list_request) (lg : list log_record),
    outcome_files
      (fm2.while_true query size_filter limit script tok fs count calls lg) =
    fs ++ firstn (room limit count) (accepted size_filter (served script)).
Proof.
  induction script as [|answer script IH]; intros tok fs count calls lg.
  - simpl. unfold outcome_files. simpl. now rewrite firstn_nil, app_nil_r.
  - simpl. destruct answer as [r|error]; simpl.
    + rewrite fm2_for_files_spec. cbn zeta. fold (page_files r).
      rewrite accepted_app.
      destruct (Nat.leb_spec (room limit count)
                  (List.length (accepted size_filter (page_files r))))
        as [Hle|Hgt].
      * unfold outcome_files. simpl. f_equal.
        rewrite firstn_app.
        replace (room limit count
                 - List.length (accepted size_filter (page_files r)))%nat
          with 0%nat by lia.
        simpl. now rewrite app_nil_r.
      * rewrite firstn_app, firstn_all2 by lia.
        destruct (truthy_str (nextPageToken r)); simpl.
        -- rewrite IH, <- app_assoc. f_equal. f_equal. f_equal.
           unfold room in *. lia.
        -- unfold outcome_files. simpl.
           now rewrite firstn_nil, app_nil_r.
    + unfold outcome_files. simpl. now rewrite firstn_nil, app_nil_r.
Qed.

(** Pages that all carry a token and leave room are gone through, one
    request each. *)
Lemma fm2_while_true_prefix (pre : list response) (tail : list page_result) :
  forall (tok : option string) (fs : list File.t) (count : Z)
         (calls : list list_request) (lg : list log_record),
    Forall continues pre ->
    (List.length (accepted size_filter (records pre)) < room limit count)%nat ->
    exists (tok' : option string) (reqs : list list_request),
      List.length reqs = List.length pre /\
      fm2.while_true query size_filter limit (map Page pre ++ tail) tok fs
        count calls lg =
      fm2.while_true query size_filter limit tail tok'
        (fs ++ accepted size_filter (records pre))
        (count + Z.of_nat (List.length (accepted size_filter (records pre))))
        (calls ++ reqs) lg.
Proof.
  induction pre as [|r pre IH]; intros tok fs count calls lg Hall Hroom.
  - exists tok, []. simpl. now rewrite !app_nil_r, Z.add_0_r.
  - inversion Hall as [|? ? Hr Hpre]; subst.
    unfold records in Hroom |- *. simpl flat_map in Hroom |- *.
    fold (records pre) in Hroom |- *.
    rewrite accepted_app, length_app in Hroom |- *.
    simpl. rewrite fm2_for_files_spec. cbn zeta. fold (page_files r).
    destruct (Nat.leb_spec (room limit count)
                (List.length (accepted size_filter (page_files r))))
      as [Hle|Hgt]; [lia|].
    unfold continues in Hr. rewrite Hr. simpl.
    destruct (IH (nextPageToken r)
                (fs ++ accepted size_filter (page_files r))
                (count + Z.of_nat (List.length
                                     (accepted size_filter (page_files r))))
                (calls ++ [mkListRequest query "drive" fm2.list_fields tok 1000])
                lg Hpre) as (tok' & reqs & Hlen & Heq).
    { unfold room in *. lia. }
    exists tok', (mkListRequest query "drive" fm2.list_fields tok 1000 :: reqs).
    split; [simpl; now rewrite Hlen|].
    rewrite Heq. f_equal.
    + now rewrite <- app_assoc.
    + lia.
    + now rewrite <- app_assoc.
Qed.

(** The page on which the count reaches the limit is the last one asked
    for: the answers after it stay in the script. *)
Lemma fm2_while_true_reach (pre : list response) (r : response)
    (rest : list page_result) (tok : option string) (fs : list File.t)
    (count : Z) (calls : list list_request) (lg : list log_record) :
  Forall continues pre ->
  (List.length (accepted size_filter (records pre)) < room limit count)%nat ->
  (room limit count
   <= List.length (accepted size_filter (records (pre ++ [r]))))%nat ->
  let out := fm2.while_true query size_filter limit
               (map Page pre ++ Page r :: rest) tok fs count calls lg in
  outcome_script out = rest /\
  List.length (outcome_calls out) =
    (List.length calls + S (List.length pre))%nat.
Proof.
  intros Hall Hlt Hge out. subst out.
  destruct (fm2_while_true_prefix pre (Page r :: rest) tok fs count calls lg
              Hall Hlt) as (tok' & reqs & Hlen & Heq).
  rewrite Heq. simpl. rewrite fm2_for_files_spec. cbn zeta.
  fold (page_files r).
  unfold records in Hge. rewrite flat_map_app in Hge. simpl in Hge.
  fold (records pre) in Hge. rewrite app_nil_r, accepted_app, length_app in Hge.
  destruct (Nat.leb_spec
              (room limit
                 (count + Z.of_nat (List.length
                                      (accepted size_filter (records pre)))))
              (List.length (accepted size_filter (page_files r))))
    as [Hle|Hgt].
  - unfold outcome_script, outcome_calls. simpl.
    rewrite !length_app, Hlen. simpl. split; [reflexivity|lia].
  - exfalso. unfold room in *. lia.
Qed.

(** A failed request ends the loop: the answers after it stay in the
    script. *)
Lemma fm2_while_true_fail (pre : list response) (error : string)
    (rest : list page_result) (tok : option string) (fs : list File.t)
    (count : Z) (calls : list list_request) (lg : list log_record) :
  Forall continues pre ->
  (List.length (accepted size_filter (records pre)) < room limit count)%nat ->
  let out := fm2.while_true query size_filter limit
               (map Page pre ++ HttpError error :: rest) tok fs count calls lg in
  outcome_files out = fs ++ accepted size_filter (records pre) /\
  outcome_script out = rest /\
  List.length (outcome_calls out) =
    (List.length calls + S (List.length pre))%nat.
Proof.
  intros Hall Hlt out. subst out.
  destruct (fm2_while_true_prefix pre (HttpError error :: rest) tok fs count
              calls lg Hall Hlt) as (tok' & reqs & Hlen & Heq).
  rewrite Heq. simpl. unfold outcome_files, outcome_script, outcome_calls.
  simpl. rewrite !length_app, Hlen. simpl. repeat split. lia.
Qed.

End FetchLemmas.

(** [fetch_files] in terms of its loop. *)
Lemma filemail_fetch_files_unfold (w : world) (query : string)
    (size_filter limit : option Z) :
  let out := filemail.while_true query size_filter
               (get limit filemail.default_limit) (drive w) None [] 0
               (drive_calls w) (log w) in
  filemail.fetch_files w query size_filter limit =
  (outcome_files out,
   mkWorld (outcome_script out) (outcome_calls out) (gmail w) (gmail_calls w)
     (outcome_log out)).
Proof.
  unfold filemail.fetch_files. cbn zeta.
  destruct (filemail.while_true _ _ _ _ _ _ _ _ _) as [[[fs rest] calls] lg].
  reflexivity.
Qed.

Lemma fm2_fetch_files_unfold (w : world) (query : string)
    (size_filter limit : option Z) :
  let out := fm2.while_true query size_filter
               (get limit fm2.default_limit) (drive w) None [] 0
               (drive_calls w) (log w) in
  fm2.fetch_files w query size_filter limit =
  (outcome_files out,
   mkWorld (outcome_script out) (outcome_calls out) (gmail w) (gmail_calls w)
     (outcome_log out)).
Proof.
  unfold fm2.fetch_files. cbn zeta.
  destruct (fm2.while_true _ _ _ _ _ _ _ _ _) as [[[fs rest] calls] lg].
  reflexivity.
Qed.

(** The records [filemail.fetch_files] returns: the first [room limit 0]
    of the delivered records that pass the size test. *)
Lemma filemail_fetch_files_files (w : world) (query : string)
    (size_filter limit : option Z) :
  fst (filemail.fetch_files w query size_filter limit) =
  firstn (room (get limit filemail.default_limit) 0)
    (accepted size_filter (served (drive w))).
Proof.
  rewrite filemail_fetch_files_unfold. cbn zeta. simpl fst.
  destruct (while_true_agree query size_filter
              (get limit filemail.default_limit) (drive w) None [] 0
              (drive_calls w) (drive_calls w) (log w) (log w) eq_refl)
    as (Hf & _ & _).
  rewrite Hf. now rewrite fm2_while_true_files.
Qed.

Lemma served_prefix (pre : list response) (tail : list page_result) :
  Forall continues pre ->
  served (map Page pre ++ tail) = records pre ++ served tail.
Proof.
  induction 1 as [|r pre Hr Hpre IH]; simpl.
  - reflexivity.
  - unfold continues in Hr. rewrite Hr, IH.
    unfold records. simpl. now rewrite app_assoc.
Qed.

Lemma room_positive (limit : Z) :
  1 <= limit -> room limit 0 = Z.to_nat limit.
Proof. intros H. unfold room. f_equal. lia. Qed.

(** ** The fetcher: limit, size filter, failed requests *)

(** C3, for a limit of at least one: for every query, every sequence of page answers and
    every limit of at least one, [fetch_files] returns at most [limit]
    records, namely the first [limit] of the delivered records that pass
    the size test; and when the count reaches the limit on a page, the
    records after it on that page are ignored and no further page is
    requested. *)
Theorem fetch_files_limit (w : world) (query : string)
    (size_filter : option Z) (limit : Z) :
  1 <= limit ->
  let out := filemail.fetch_files w query size_filter (Some limit) in
  Z.of_nat (List.length (fst out)) <= limit /\
  fst out =
    firstn (Z.to_nat limit) (accepted size_filter (served (drive w))) /\
  forall (pre : list response) (r : response) (rest : list page_result),
    drive w = map Page pre ++ Page r :: rest ->
    Forall continues pre ->
    Z.of_nat (List.length (accepted size_filter (records pre))) < limit ->
    limit <=
      Z.of_nat (List.length (accepted size_filter (records (pre ++ [r])))) ->
    fst out =
      firstn (Z.to_nat limit) (accepted size_filter (records (pre ++ [r]))) /\
    drive (snd out) = rest /\
    List.length (drive_calls (snd out)) =
      (List.length (drive_calls w) + List.length pre + 1)%nat.
Proof.
  intros Hlimit out.
  assert (Hfiles : fst out =
            firstn (Z.to_nat limit) (accepted size_filter (served (drive w)))).
  { subst out. rewrite filemail_fetch_files_files. simpl get.
    now rewrite room_positive. }
  split; [|split; [exact Hfiles|]].
  - rewrite Hfiles, length_firstn. lia.
  - intros pre r rest Hscript Hall Hlt Hge.
    split; [|split].
    + rewrite Hfiles, Hscript, served_prefix by assumption. simpl served.
      unfold records in *. rewrite flat_map_app in *. simpl flat_map in *.
      rewrite app_nil_r in *. rewrite !accepted_app in *.
      rewrite app_assoc, firstn_app.
      rewrite length_app in *.
      replace (Z.to_nat limit - _)%nat with 0%nat by lia.
      simpl. now rewrite app_nil_r.
    + subst out. rewrite filemail_fetch_files_unfold. cbn zeta. simpl.
      destruct (while_true_agree query size_filter limit (drive w) None [] 0
                  (drive_calls w) (drive_calls w) (log w) (log w) eq_refl)
        as (_ & Hs & _).
      rewrite Hs, Hscript.
      apply fm2_while_true_reach; trivial; unfold room; lia.
    + subst out. rewrite filemail_fetch_files_unfold. cbn zeta. simpl.
      destruct (while_true_agree query size_filter limit (drive w) None [] 0
                  (drive_calls w) (drive_calls w) (log w) (log w) eq_refl)
        as (_ & _ & Hc).
      apply (f_equal (@List.length _)) in Hc. rewrite !length_map in Hc.
      rewrite Hc, Hscript.
      destruct (fm2_while_true_reach query size_filter limit pre r rest None
                  [] 0 (drive_calls w) (log w)) as (_ & Hn);
        trivial; unfold room; lia.
Qed.

Lemma fetch_files_limit_witness :
  let w := sample_world [Page page_one; Page page_two; Page page_three] in
  let out := filemail.fetch_files w "q" None (Some 3) in
  1 <= 3 /\
  Z.of_nat (List.length (fst out)) <= 3 /\
  fst out = [sample "1" "a.bin" (Some 50); sample "2" "b.bin" (Some 7);
             sample "3" "c.bin" (Some 90)] /\
  drive (snd out) = [Page page_three] /\
  List.length (drive_calls (snd out)) = 2%nat.
Proof.
  intros w out.
  assert (H13 : 1 <= 3) by lia.
  destruct (fetch_files_limit w "q" None 3 H13) as (Hlen & _ & Hreach).
  destruct (Hreach [page_one] page_two [Page page_three]) as (Hf & Hd & Hc).
  - reflexivity.
  - repeat constructor.
  - vm_compute. reflexivity.
  - vm_compute. discriminate.
  - repeat split; assumption.
Defined.

(** With a limit of zero the first record that passes is still returned:
    the bound by the limit does not hold for every limit. *)
Lemma fetch_files_limit_zero :
  ~ (forall (w : world) (query : string) (size_filter : option Z) (limit : Z),
        Z.of_nat (List.length
                    (fst (filemail.fetch_files w query size_filter
                            (Some limit)))) <= limit).
Proof.
  intros H.
  specialize (H (sample_world [Page page_three]) "q" None 0).
  vm_compute in H. apply H. reflexivity.
Qed.

Lemma in_firstn {A : Type} (n : nat) (xs : list A) (x : A) :
  In x (firstn n xs) -> In x xs.
Proof.
  revert xs. induction n as [|n IH]; intros [|y xs]; simpl; try tauto.
  intros [Heq|Hin]; [now left|right; now apply IH].
Qed.

Lemma accepted_threshold (threshold : Z) (page : list File.t) :
  threshold <> 0 ->
  accepted (Some threshold) page =
  filter (fun file => threshold <? get (File.size file) 0) page.
Proof.
  intros Hnz. unfold accepted. apply filter_ext. intros file.
  unfold skips, truthy_int.
  destruct (Z.eqb_spec threshold 0) as [|_]; [contradiction|]. simpl.
  destruct (Z.leb_spec (get (File.size file) 0) threshold);
    destruct (Z.ltb_spec threshold (get (File.size file) 0)); trivial; lia.
Qed.

(** C4, for a size filter other than zero: when such a filter is supplied, the
    records whose size (zero when absent) is at most the threshold are left
    out and do not count toward the limit, and every returned record has a
    size strictly above the threshold. *)
Theorem fetch_files_size_filter (w : world) (query : string)
    (threshold : Z) (limit : option Z) :
  threshold <> 0 ->
  let out := filemail.fetch_files w query (Some threshold) limit in
  fst out =
    firstn (room (get limit filemail.default_limit) 0)
      (filter (fun file => threshold <? get (File.size file) 0)
         (served (drive w))) /\
  (forall file, In file (fst out) -> threshold < get (File.size file) 0) /\
  (forall file, get (File.size file) 0 <= threshold -> ~ In file (fst out)).
Proof.
  intros Hnz out.
  assert (Hfiles : fst out =
            firstn (room (get limit filemail.default_limit) 0)
              (filter (fun file => threshold <? get (File.size file) 0)
                 (served (drive w)))).
  { subst out. now rewrite filemail_fetch_files_files, accepted_threshold. }
  assert (Hall : forall file, In file (fst out) ->
                              threshold < get (File.size file) 0).
  { intros file Hin. rewrite Hfiles in Hin. apply in_firstn in Hin.
    apply filter_In in Hin. destruct Hin as [_ Hlt]. now apply Z.ltb_lt. }
  repeat split; trivial.
  intros file Hle Hin. apply Hall in Hin. lia.
Qed.

Lemma fetch_files_size_filter_witness :
  let w := sample_world [Page page_one; Page page_two; Page page_three] in
  let out := filemail.fetch_files w "q" (Some 55) (Some 2) in
  55 <> 0 /\
  fst out = [sample "3" "c.bin" (Some 90); sample "4" "d.bin" (Some 60)] /\
  (forall file, In file (fst out) -> 55 < get (File.size file) 0).
Proof.
  intros w out.
  assert (Hnz : 55 <> 0) by lia.
  destruct (fetch_files_size_filter w "q" 55 (Some 2) Hnz) as (Hf & Hall & _).
  split; [exact Hnz|]. split; [exact Hf|exact Hall].
Defined.

(** A size filter of zero lets a record of size zero through: not every
    supplied filter keeps the records at or below it out. *)
Lemma fetch_files_size_filter_zero :
  ~ (forall (w : world) (query : string) (threshold : Z) (limit : option Z)
            (file : File.t),
        In file (fst (filemail.fetch_files w query (Some threshold) limit)) ->
        threshold < get (File.size file) 0).
Proof.
  intros H.
  specialize (H (sample_world
                   [Page (mkResponse (Some [sample "1" "empty.txt" (Some 0)])
                            None)])
                "q" 0 None (sample "1" "empty.txt" (Some 0))).
  vm_compute in H. specialize (H (or_introl eq_refl)). discriminate H.
Qed.

(** C5: when a page request fails, [fetch_files] stops and returns, as an
    ordinary value, the records accumulated from the pages before it; no
    page is requested after the failed one; a failure on the very first
    page yields the empty list. *)
Theorem fetch_files_page_failure (w : world) (query : string)
    (size_filter limit : option Z) (pre : list response) (error : string)
    (rest : list page_result) :
  drive w = map Page pre ++ HttpError error :: rest ->
  Forall continues pre ->
  (List.length (accepted size_filter (records pre))
   < room (get limit filemail.default_limit) 0)%nat ->
  let out := filemail.fetch_files w query size_filter limit in
  fst out = accepted size_filter (records pre) /\
  drive (snd out) = rest /\
  List.length (drive_calls (snd out)) =
    (List.length (drive_calls w) + List.length pre + 1)%nat /\
  (pre = [] -> fst out = []).
Proof.
  intros Hscript Hall Hroom out.
  assert (Hfiles : fst out = accepted size_filter (records pre)).
  { subst out. rewrite filemail_fetch_files_files, Hscript.
    rewrite served_prefix by assumption. simpl served.
    rewrite app_nil_r. apply firstn_all2. lia. }
  destruct (while_true_agree query size_filter
              (get limit filemail.default_limit) (drive w) None [] 0
              (drive_calls w) (drive_calls w) (log w) (log w) eq_refl)
    as (_ & Hs & Hc).
  apply (f_equal (@List.length _)) in Hc. rewrite !length_map in Hc.
  destruct (fm2_while_true_fail query size_filter
              (get limit filemail.default_limit) pre error rest None [] 0
              (drive_calls w) (log w) Hall Hroom) as (_ & Hs' & Hc').
  rewrite <- Hscript in Hs', Hc'.
  subst out. rewrite filemail_fetch_files_unfold in *. cbn zeta in *.
  simpl in *.
  repeat split.
  - exact Hfiles.
  - now rewrite Hs.
  - rewrite Hc, Hc'. lia.
  - intros ->. exact Hfiles.
Qed.

Lemma fetch_files_page_failure_witness :
  let w := sample_world [Page page_one; HttpError "503"; Page page_three] in
  let out := filemail.fetch_files w "q" None None in
  fst out = [sample "1" "a.bin" (Some 50); sample "2" "b.bin" (Some 7)] /\
  drive (snd out) = [Page page_three] /\
  List.length (drive_calls (snd out)) = 2%nat.
Proof.
  intros w out.
  destruct (fetch_files_page_failure w "q" None None [page_one] "503"
              [Page page_three]) as (Hf & Hd & Hc & _).
  - reflexivity.
  - repeat constructor.
  - vm_compute. lia.
  - repeat split; assumption.
Defined.

(** ** A size filter of zero *)

Lemma skips_zero (file : File.t) : skips (Some 0) file = skips None file.
Proof. reflexivity. Qed.

Lemma filemail_for_files_zero (limit : Z) (page fs : list File.t) (count : Z)
    (lg : list log_record) :
  filemail.for_files (Some 0) limit page fs count lg =
  filemail.for_files None limit page fs count lg.
Proof.
  revert fs count lg.
  induction page as [|file page IH]; intros fs count lg; simpl.
  - reflexivity.
  - now rewrite IH.
Qed.

Lemma fm2_for_files_zero (limit : Z) (page fs : list File.t) (count : Z) :
  fm2.for_files (Some 0) limit page fs count =
  fm2.for_files None limit page fs count.
Proof.
  revert fs count.
  induction page as [|file page IH]; intros fs count; simpl.
  - reflexivity.
  - now rewrite IH.
Qed.

Lemma filemail_while_true_zero (query : string) (limit : Z)
    (script : list page_result) :
  forall tok fs count calls lg,
    filemail.while_true query (Some 0) limit script tok fs count calls lg =
    filemail.while_true query None limit script tok fs count calls lg.
Proof.
  induction script as [|[r|error] script IH]; intros; simpl; trivial.
  rewrite filemail_for_files_zero.
  destruct (filemail.for_files None limit (get (files r) []) fs count lg)
    as [[[fs' count'] lg']|[[fs' count'] lg']]; trivial.
  destruct (truthy_str (nextPageToken r)); simpl; trivial.
Qed.

Lemma fm2_while_true_zero (query : string) (limit : Z)
    (script : list page_result) :
  forall tok fs count calls lg,
    fm2.while_true query (Some 0) limit script tok fs count calls lg =
    fm2.while_true query None limit script tok fs count calls lg.
Proof.
  induction script as [|[r|error] script IH]; intros; simpl; trivial.
  rewrite fm2_for_files_zero.
  destruct (fm2.for_files None limit (get (files r) []) fs count)
    as [[fs' count']|[fs' count']]; trivial.
  destruct (truthy_str (nextPageToken r)); simpl; trivial.
Qed.

Lemma accepted_zero (page : list File.t) : accepted (Some 0) page = page.
Proof.
  induction page as [|file page IH].
  - reflexivity.
  - change (file :: accepted (Some 0) page = file :: page). now rewrite IH.
Qed.

(** C9: with a size filter of zero the size test is not applied: in both
    scripts the run is the very run made without a size filter, and the
    records returned are the leading delivered records whatever their size,
    records of size zero included. *)
Theorem fetch_files_zero_filter (w : world) (query : string)
    (limit : option Z) :
  filemail.fetch_files w query (Some 0) limit =
    filemail.fetch_files w query None limit /\
  fm2.fetch_files w query (Some 0) limit =
    fm2.fetch_files w query None limit /\
  fst (filemail.fetch_files w query (Some 0) limit) =
    firstn (room (get limit filemail.default_limit) 0) (served (drive w)) /\
  fst (fm2.fetch_files w query (Some 0) limit) =
    firstn (room (get limit fm2.default_limit) 0) (served (drive w)) /\
  (forall file, skips (Some 0) file = false).
Proof.
  repeat split.
  - unfold filemail.fetch_files. now rewrite filemail_while_true_zero.
  - unfold fm2.fetch_files. now rewrite fm2_while_true_zero.
  - now rewrite filemail_fetch_files_files, accepted_zero.
  - rewrite fm2_fetch_files_unfold. cbn zeta. simpl fst.
    now rewrite fm2_while_true_files, accepted_zero.
Qed.

(** ** The two fetchers *)

(** C10: for every query, sequence of page answers, size filter and
    explicitly supplied limit the two [fetch_files] return the same
    records; they leave the same answers unread and issue the same
    requests but for the fields asked; and their default limits are 1000
    and 100. *)
Theorem fetch_files_equivalent (w : world) (query : string)
    (size_filter : option Z) (limit : Z) :
  let a := filemail.fetch_files w query size_filter (Some limit) in
  let b := fm2.fetch_files w query size_filter (Some limit) in
  fst a = fst b /\
  drive (snd a) = drive (snd b) /\
  map sans_fields (drive_calls (snd a)) =
    map sans_fields (drive_calls (snd b)) /\
  gmail (snd a) = gmail (snd b) /\
  gmail_calls (snd a) = gmail_calls (snd b) /\
  filemail.default_limit = 1000 /\ fm2.default_limit = 100.
Proof.
  intros a b. subst a b.
  rewrite filemail_fetch_files_unfold, fm2_fetch_files_unfold. cbn zeta.
  simpl.
  destruct (while_true_agree query size_filter limit (drive w) None [] 0
              (drive_calls w) (drive_calls w) (log w) (log w) eq_refl)
    as (Hf & Hs & Hc).
  repeat split; assumption.
Qed.

(** ** The duplicate grouper *)

Lemma key_eqb_eq (k1 k2 : filemail.key) :
  filemail.key_eqb k1 k2 = true <-> k1 = k2.
Proof.
  destruct k1 as [n1 s1], k2 as [n2 s2]. unfold filemail.key_eqb. simpl.
  rewrite andb_true_iff, String.eqb_eq, Z.eqb_eq.
  split; [intros [-> ->]; reflexivity|intros [= -> ->]; now split].
Qed.

Lemma key_eqb_neq (k1 k2 : filemail.key) :
  filemail.key_eqb k1 k2 = false <-> k1 <> k2.
Proof.
  rewrite <- key_eqb_eq. destruct (filemail.key_eqb k1 k2); split; congruence.
Qed.

Section Grouping.

Import filemail.

Lemma find_setdefault (g : groups) (k k' : key) (file : File.t) :
  find_group k (setdefault_append g k' file) =
  if key_eqb k' k then find_group k g ++ [file] else find_group k g.
Proof.
  induction g as [|[k0 ms] g IH]; simpl.
  - destruct (key_eqb k' k); reflexivity.
  - destruct (key_eqb k0 k') eqn:E0; simpl.
    + apply key_eqb_eq in E0. subst k0.
      destruct (key_eqb k' k); reflexivity.
    + rewrite IH. destruct (key_eqb k0 k) eqn:E1; trivial.
      apply key_eqb_eq in E1. subst k0.
      destruct (key_eqb k' k) eqn:E2; trivial.
      apply key_eqb_eq in E2. apply key_eqb_neq in E0. congruence.
Qed.

Lemma setdefault_keys_in (g : groups) (k x : key) (file : File.t) :
  In x (keys (setdefault_append g k file)) <-> In x (keys g) \/ x = k.
Proof.
  induction g as [|[k0 ms] g IH]; simpl.
  - intuition congruence.
  - destruct (key_eqb k0 k) eqn:E0; simpl.
    + apply key_eqb_eq in E0. subst k0. intuition congruence.
    + unfold keys in IH. rewrite IH. tauto.
Qed.

Lemma setdefault_NoDup (g : groups) (k : key) (file : File.t) :
  NoDup (keys g) -> NoDup (keys (setdefault_append g k file)).
Proof.
  induction g as [|[k0 ms] g IH]; simpl; intros Hnd.
  - repeat constructor. intros [].
  - inversion Hnd as [|? ? Hnotin Hnd']; subst.
    destruct (key_eqb k0 k) eqn:E0; simpl.
    + now constructor.
    + constructor; [|now apply IH].
      intros Hin. apply setdefault_keys_in in Hin.
      destruct Hin as [Hin| ->]; [contradiction|].
      apply key_eqb_neq in E0. congruence.
Qed.

Lemma setdefault_nonempty (g : groups) (k : key) (file : File.t) :
  Forall (fun ms => ms <> []) (values g) ->
  Forall (fun ms => ms <> []) (values (setdefault_append g k file)).
Proof.
  induction g as [|[k0 ms] g IH]; simpl; intros Hne.
  - repeat constructor. discriminate.
  - inversion Hne; subst.
    destruct (key_eqb k0 k); simpl; constructor; auto.
    now destruct ms.
Qed.

Lemma setdefault_Permutation (g : groups) (k : key) (file : File.t) :
  Permutation (List.concat (values (setdefault_append g k file)))
    (List.concat (values g) ++ [file]).
Proof.
  induction g as [|[k0 ms] g IH]; simpl.
  - reflexivity.
  - destruct (key_eqb k0 k); simpl.
    + rewrite <- !app_assoc. apply Permutation_app_head.
      apply Permutation_app_comm.
    + rewrite <- app_assoc. now apply Permutation_app_head.
Qed.

Lemma find_group_In (g : groups) (k : key) (ms : list File.t) :
  NoDup (keys g) -> In (k, ms) g -> find_group k g = ms.
Proof.
  induction g as [|[k0 ms0] g IH]; simpl; intros Hnd Hin; [contradiction|].
  inversion Hnd as [|? ? Hnotin Hnd']; subst.
  destruct Hin as [[= -> ->]|Hin].
  - assert (E : key_eqb k k = true) by now apply key_eqb_eq.
    now rewrite E.
  - destruct (key_eqb k0 k) eqn:E0; [|now apply IH].
    apply key_eqb_eq in E0. subst k0.
    exfalso. apply Hnotin. now apply (in_map fst) in Hin.
Qed.

Lemma In_find_group (g : groups) (k : key) :
  In k (keys g) -> In (k, find_group k g) g.
Proof.
  induction g as [|[k0 ms0] g IH]; simpl; intros Hin; [contradiction|].
  destruct (key_eqb k0 k) eqn:E0.
  - apply key_eqb_eq in E0. subst k0. now left.
  - right. apply IH. destruct Hin as [->|Hin]; trivial.
    apply key_eqb_neq in E0. congruence.
Qed.

(** What the loop does to the groups it starts from, when every record
    has a size. *)
Lemma group_loop_sized (fs : list File.t) :
  forall g : groups,
    Forall (fun file => File.size file <> None) fs ->
    exists g' : groups,
      group_loop fs g = Ok g' /\
      (forall k, find_group k g' = find_group k g ++ filter (has_key k) fs) /\
      (forall k, In k (keys g') <->
                 In k (keys g) \/ exists file, In file fs /\ has_key k file = true) /\
      (NoDup (keys g) -> NoDup (keys g')) /\
      (Forall (fun ms => ms <> []) (values g) ->
       Forall (fun ms => ms <> []) (values g')) /\
      Permutation (List.concat (values g')) (List.concat (values g) ++ fs).
Proof.
  induction fs as [|file fs IH]; intros g Hsized.
  - exists g. split; [reflexivity|].
    split; [intros k; simpl; now rewrite app_nil_r|].
    split; [intros k; split;
            [now left|intros [H|(file & [] & _)]; exact H]|].
    split; [trivial|]. split; [trivial|].
    now rewrite app_nil_r.
  - inversion Hsized as [|? ? Hfile Hfs]; subst.
    destruct (File.size file) as [size|] eqn:Esize; [|contradiction].
    destruct (IH (setdefault_append g (File.name file, size) file) Hfs)
      as (g' & Hrun & Hfind & Hkeys & Hnd & Hne & Hperm).
    exists g'. simpl. rewrite Esize. simpl.
    split; [exact Hrun|]. split; [|split; [|split; [|split]]].
    + intros k. rewrite Hfind, find_setdefault.
      unfold has_key at 2. rewrite Esize.
      destruct (key_eqb (File.name file, size) k); simpl; trivial.
      now rewrite <- app_assoc.
    + intros k. rewrite Hkeys, setdefault_keys_in. split.
      * intros [[Hin| ->]|(f & Hin & Hk)].
        -- now left.
        -- right. exists file. split; [now left|].
           unfold has_key. rewrite Esize. now apply key_eqb_eq.
        -- right. exists f. split; [now right|exact Hk].
      * intros [Hin|(f & [<-|Hin] & Hk)].
        -- left. now left.
        -- left. right. unfold has_key in Hk. rewrite Esize in Hk.
           apply key_eqb_eq in Hk. now subst k.
        -- right. now exists f.
    + intros H. now apply Hnd, setdefault_NoDup.
    + intros H. now apply Hne, setdefault_nonempty.
    + rewrite Hperm, setdefault_Permutation. now rewrite <- app_assoc.
Qed.

(** The loop raises exactly when a record has no size. *)
Lemma group_loop_raise (fs : list File.t) :
  forall g : groups,
    (exists file, In file fs /\ File.size file = None) ->
    group_loop fs g = Raise (KeyError "size").
Proof.
  induction fs as [|file fs IH]; intros g (f & Hin & Hnone).
  - destruct Hin.
  - simpl. destruct (File.size file) as [size|] eqn:Esize; simpl; trivial.
    apply IH. destruct Hin as [->|Hin]; [congruence|now exists f].
Qed.

Lemma sized_dec (fs : list File.t) :
  Forall (fun file => File.size file <> None) fs \/
  exists file, In file fs /\ File.size file = None.
Proof.
  induction fs as [|file fs [IH|(f & Hin & Hnone)]].
  - now left.
  - destruct (File.size file) eqn:E.
    + left. constructor; [congruence|exact IH].
    + right. exists file. split; [now left|exact E].
  - right. exists f. split; [now right|exact Hnone].
Qed.

Lemma has_key_spec (k : key) (file : File.t) :
  has_key k file = true <->
  File.name file = fst k /\ File.size file = Some (snd k).
Proof.
  unfold has_key. destruct (File.size file) as [size|].
  - rewrite key_eqb_eq. destruct k as [n s]. simpl.
    split; [intros [= -> ->]; now split|intros [-> [= ->]]; reflexivity].
  - split; [discriminate|intros [_ H]; discriminate].
Qed.

End Grouping.

(** The groups of a sequence of records that all have a size. *)
Lemma process_sized (fs : list File.t) :
  Forall (fun file => File.size file <> None) fs ->
  exists g : filemail.groups,
    filemail.process_duplicate_files fs = Ok g /\
    NoDup (keys g) /\
    (forall k ms, In (k, ms) g -> ms = filter (has_key k) fs /\ ms <> []) /\
    (forall k file, In file fs -> has_key k file = true ->
                    In (k, filter (has_key k) fs) g) /\
    Permutation (List.concat (values g)) fs.
Proof.
  intros Hsized.
  destruct (group_loop_sized fs [] Hsized)
    as (g & Hrun & Hfind & Hkeys & Hnd & Hne & Hperm).
  specialize (Hnd (NoDup_nil _)). specialize (Hne (Forall_nil _)).
  exists g. split; [exact Hrun|]. split; [exact Hnd|].
  split; [|split; [|exact Hperm]].
  - intros k ms Hin. split.
    + rewrite <- (find_group_In g k ms Hnd Hin). apply Hfind.
    + rewrite Forall_forall in Hne. apply Hne.
      unfold values. now apply (in_map snd) in Hin.
  - intros k file Hin Hk.
    assert (Hkey : In k (keys g)).
    { apply Hkeys. right. now exists file. }
    apply In_find_group in Hkey. now rewrite Hfind in Hkey.
Qed.

Lemma has_key_unique (k1 k2 : filemail.key) (file : File.t) :
  has_key k1 file = true -> has_key k2 file = true -> k1 = k2.
Proof.
  intros H1 H2. apply has_key_spec in H1. apply has_key_spec in H2.
  destruct k1 as [n1 s1], k2 as [n2 s2], H1 as [Hn1 Hs1], H2 as [Hn2 Hs2].
  simpl in *. congruence.
Qed.

Lemma more_than_one_spec (ms : list File.t) :
  filemail.more_than_one ms = true <-> (1 < List.length ms)%nat.
Proof. unfold filemail.more_than_one. rewrite Z.ltb_lt. lia. Qed.

(** C6: on records that all carry a size, [process_duplicate_files] is a
    partition: the keys are distinct, every group holds, in input order,
    exactly the records of its key, every record is in a group and in no
    other, the groups together are the input as a multiset; and the caller
    keeps exactly the groups with more than one member. *)
Theorem process_duplicate_files_partition (fs : list File.t) :
  Forall (fun file => File.size file <> None) fs ->
  exists g : filemail.groups,
    filemail.process_duplicate_files fs = Ok g /\
    NoDup (keys g) /\
    (forall k ms, In (k, ms) g -> ms = filter (has_key k) fs /\ ms <> []) /\
    (forall file, In file fs -> exists k ms, In (k, ms) g /\ In file ms) /\
    (forall file k1 ms1 k2 ms2,
        In (k1, ms1) g -> In (k2, ms2) g -> In file ms1 -> In file ms2 ->
        k1 = k2 /\ ms1 = ms2) /\
    Permutation (List.concat (values g)) fs /\
    (forall ms, In ms (filemail.duplicate_selection g) <->
                In ms (values g) /\ (1 < List.length ms)%nat).
Proof.
  intros Hsized.
  destruct (process_sized fs Hsized) as (g & Hrun & Hnd & Hgroup & Hin & Hperm).
  exists g. split; [exact Hrun|]. split; [exact Hnd|].
  split; [exact Hgroup|]. split; [|split; [|split; [exact Hperm|]]].
  - intros file Hfile.
    rewrite Forall_forall in Hsized. specialize (Hsized file Hfile).
    destruct (File.size file) as [size|] eqn:Esize; [|contradiction].
    assert (Hk : has_key (File.name file, size) file = true).
    { apply has_key_spec. now split. }
    exists (File.name file, size), (filter (has_key (File.name file, size)) fs).
    split; [now apply Hin with file|]. apply filter_In. now split.
  - intros file k1 ms1 k2 ms2 H1 H2 Hf1 Hf2.
    destruct (Hgroup k1 ms1 H1) as [E1 _].
    destruct (Hgroup k2 ms2 H2) as [E2 _].
    assert (k1 = k2).
    { rewrite E1 in Hf1. rewrite E2 in Hf2.
      apply filter_In in Hf1. apply filter_In in Hf2.
      apply has_key_unique with file; tauto. }
    subst k2. split; [reflexivity|congruence].
  - intros ms. unfold filemail.duplicate_selection.
    rewrite filter_In, more_than_one_spec. reflexivity.
Qed.

(** Scenario 2 of the specification: two pairs and one single record. *)
Lemma process_duplicate_files_partition_witness :
  let fs := [report_docx "1"; notes_txt "2"; sample "3" "Only.pdf" (Some 42);
             report_docx "4"; notes_txt "5"] in
  Forall (fun file => File.size file <> None) fs /\
  exists g : filemail.groups,
    filemail.process_duplicate_files fs = Ok g /\
    filemail.duplicate_selection g =
      [[report_docx "1"; report_docx "4"]; [notes_txt "2"; notes_txt "5"]] /\
    Permutation (List.concat (values g)) fs.
Proof.
  intros fs.
  assert (Hsized : Forall (fun file => File.size file <> None) fs).
  { repeat constructor; discriminate. }
  split; [exact Hsized|].
  destruct (process_duplicate_files_partition fs Hsized)
    as (g & Hrun & _ & _ & _ & _ & Hperm & _).
  exists g. split; [exact Hrun|]. split; [|exact Hperm].
  vm_compute in Hrun. injection Hrun as <-. reflexivity.
Defined.

(** C1, on the size a record carries: [process_duplicate_files] keys each
    record by the pair of its name and the size it carries: a group holds
    the records of the input with its key's name and size, and two records
    with the same name and the same size are in the same group.  No default
    stands in for a missing size: the function raises [KeyError] exactly
    when some record has no size. *)
Theorem process_duplicate_files_keys (fs : list File.t) :
  (filemail.process_duplicate_files fs = Raise (KeyError "size") <->
   exists file, In file fs /\ File.size file = None) /\
  (forall g k ms file,
      filemail.process_duplicate_files fs = Ok g ->
      In (k, ms) g ->
      (In file ms <->
       In file fs /\ File.name file = fst k /\ File.size file = Some (snd k))) /\
  (forall g f1 f2,
      filemail.process_duplicate_files fs = Ok g ->
      In f1 fs -> In f2 fs ->
      File.name f1 = File.name f2 -> File.size f1 = File.size f2 ->
      exists k ms, In (k, ms) g /\ In f1 ms /\ In f2 ms).
Proof.
  destruct (sized_dec fs) as [Hsized|Hmissing].
  - destruct (process_sized fs Hsized)
      as (g0 & Hrun & Hnd & Hgroup & Hin & Hperm).
    split; [|split].
    + split.
      * rewrite Hrun. discriminate.
      * intros (file & Hfile & Hnone).
        rewrite Forall_forall in Hsized. now apply Hsized in Hfile.
    + intros g k ms file Hg Hkms. rewrite Hrun in Hg. injection Hg as <-.
      destruct (Hgroup k ms Hkms) as [-> _].
      now rewrite filter_In, has_key_spec.
    + intros g f1 f2 Hg H1 H2 Hname Hsize.
      rewrite Hrun in Hg. injection Hg as <-.
      rewrite Forall_forall in Hsized. pose proof (Hsized f1 H1) as Hs1.
      destruct (File.size f1) as [size|] eqn:E1; [|contradiction].
      set (k := (File.name f1, size)).
      assert (K1 : has_key k f1 = true) by (apply has_key_spec; now split).
      assert (K2 : has_key k f2 = true)
        by (apply has_key_spec; split; simpl; congruence).
      exists k, (filter (has_key k) fs).
      split; [now apply Hin with f1|].
      split; apply filter_In; now split.
  - pose proof (group_loop_raise fs [] Hmissing) as Hraise.
    fold (filemail.process_duplicate_files fs) in Hraise.
    split; [|split].
    + split; trivial.
    + intros g k ms file Hg. rewrite Hraise in Hg. discriminate.
    + intros g f1 f2 Hg. rewrite Hraise in Hg. discriminate.
Qed.

Lemma process_duplicate_files_keys_witness :
  let fs := [report_docx "1"; notes_txt "2"; report_docx "4"] in
  exists k ms,
    In (k, ms) [(("Report.docx", 5000), [report_docx "1"; report_docx "4"]);
                (("Notes.txt", 300), [notes_txt "2"])] /\
    In (report_docx "1") ms /\ In (report_docx "4") ms.
Proof.
  intros fs.
  destruct (process_duplicate_files_keys fs) as (_ & _ & Hsame).
  apply (Hsame _ (report_docx "1") (report_docx "4")).
  - reflexivity.
  - simpl. tauto.
  - simpl. tauto.
  - reflexivity.
  - reflexivity.
Defined.

(** Two records of the same name that both lack a size are not grouped:
    the grouper raises [KeyError]. *)
Lemma process_duplicate_files_missing_size :
  filemail.process_duplicate_files
    [sample "1" "Untitled" None; sample "2" "Untitled" None] =
  Raise (KeyError "size").
Proof. reflexivity. Qed.

(** ** The report *)

Lemma append_assoc (a b c : string) :
  ((a ++ b) ++ c)%string = (a ++ b ++ c)%string.
Proof. induction a as [|ch a IH]; simpl; [reflexivity|now rewrite IH]. Qed.

Lemma append_nil_r (a : string) : (a ++ "")%string = a.
Proof. induction a as [|ch a IH]; simpl; [reflexivity|now rewrite IH]. Qed.

Lemma contains_refl (a : string) : contains a a.
Proof. exists ""%string, ""%string. simpl. now rewrite append_nil_r. Qed.

Lemma contains_append_l (a b x : string) :
  contains a x -> contains (a ++ b)%string x.
Proof.
  intros (pre & post & ->). exists pre, (post ++ b)%string.
  now rewrite !append_assoc.
Qed.

Lemma contains_append_r (a b x : string) :
  contains b x -> contains (a ++ b)%string x.
Proof.
  intros (pre & post & ->). exists (a ++ pre)%string, post.
  now rewrite !append_assoc.
Qed.

Lemma contains_trans (a b c : string) :
  contains a b -> contains b c -> contains a c.
Proof.
  intros (pre & post & ->) Hbc.
  apply contains_append_r, contains_append_l, Hbc.
Qed.

Lemma contains_concat (sep x : string) (ls : list string) :
  In x ls -> contains (String.concat sep ls) x.
Proof.
  induction ls as [|y ls IH]; intros Hin; [destruct Hin|].
  destruct Hin as [->|Hin].
  - destruct ls; simpl; [apply contains_refl|].
    apply contains_append_l, contains_refl.
  - destruct ls as [|z ls]; [destruct Hin|].
    change (contains (y ++ sep ++ String.concat sep (z :: ls))%string x).
    now apply contains_append_r, contains_append_r, IH.
Qed.

Lemma join_for_Ok {A : Type} (f : A -> result string) (xs : list A) :
  Forall (fun x => exists item, f x = Ok item) xs ->
  exists doc, join_for f xs = Ok doc.
Proof.
  induction 1 as [|x xs (item & Hx) _ (doc & IH)]; simpl.
  - now exists ""%string.
  - rewrite Hx, IH. simpl. eauto.
Qed.

Lemma join_for_contains {A : Type} (f : A -> result string) (xs : list A)
    (doc : string) (x : A) :
  join_for f xs = Ok doc -> In x xs ->
  exists item, f x = Ok item /\ contains doc item.
Proof.
  revert doc. induction xs as [|y xs IH]; intros doc Hrun Hin;
    [destruct Hin|].
  simpl in Hrun.
  destruct (f y) as [s|] eqn:Ey; simpl in Hrun; [|discriminate].
  destruct (join_for f xs) as [rest|] eqn:Erest; simpl in Hrun;
    [|discriminate].
  injection Hrun as <-.
  destruct Hin as [->|Hin].
  - exists s. split; [exact Ey|]. apply contains_append_l, contains_refl.
  - destruct (IH rest eq_refl Hin) as (item & Hitem & Hc).
    exists item. split; [exact Hitem|]. now apply contains_append_r.
Qed.

Lemma large_files_ul (large_files : list File.t) :
  Forall (fun file => File.size file <> None) large_files ->
  exists s, join_for large_file_li large_files = Ok s.
Proof.
  intros Hsized. apply join_for_Ok.
  eapply Forall_impl; [|exact Hsized]. intros file Hfile. simpl in Hfile.
  unfold large_file_li. destruct (File.size file); [|congruence].
  simpl. eauto.
Qed.

Lemma member_li_Ok (f : File.t) :
  File.parents f <> Some [] -> exists item, filemail.member_li f = Ok item.
Proof.
  intros Hparents. unfold filemail.member_li.
  destruct (File.parents f) as [[|p ps]|]; simpl; eauto. congruence.
Qed.

(** C2, on the fields the report indexes: the report is produced, without
    failing, for sections in which every large-file record carries a size,
    every member of a duplicate group (a group of more than one member, the
    only ones shown) has its parents absent or not empty and, in fm2.py,
    every old document carries a [webViewLink]; the other optional fields
    may be missing, and so may anything in a group of one member.  A member
    whose parents are absent is shown with the parent folder "unknown". *)
Theorem report_optional_fields (large_files old_docs : list File.t)
    (file_groups : filemail.groups) :
  Forall (fun file => File.size file <> None) large_files ->
  (forall k ms f,
      In (k, ms) file_groups -> filemail.more_than_one ms = true ->
      In f ms -> File.parents f <> Some []) ->
  (exists doc,
      filemail.report large_files old_docs file_groups = Ok doc /\
      forall k ms f,
        In (k, ms) file_groups -> filemail.more_than_one ms = true ->
        In f ms -> File.parents f = None ->
        contains doc (unknown_parent_li f)) /\
  (Forall (fun file => File.webViewLink file <> None) old_docs ->
   exists doc, fm2.report large_files old_docs = Ok doc).
Proof.
  intros Hsized Hparents.
  destruct (large_files_ul large_files Hsized) as (large & Hlarge).
  split.
  - assert (Hdocs : exists docs,
               join_for filemail.old_doc_li old_docs = Ok docs).
    { apply join_for_Ok. apply Forall_forall. intros file _.
      unfold filemail.old_doc_li. eauto. }
    destruct Hdocs as (docs & Hdocs).
    set (shown := filter (fun entry => filemail.more_than_one (snd entry))
                    file_groups).
    assert (Hgroup : forall entry, In entry shown ->
               exists inner, join_for filemail.member_li (snd entry) = Ok inner).
    { intros [k0 ms0] Hin. apply filter_In in Hin.
      destruct Hin as [Hin Hmore]. simpl in Hmore.
      apply join_for_Ok. apply Forall_forall. intros f Hf.
      apply member_li_Ok. now apply (Hparents k0 ms0 f). }
    assert (Hdups : exists dups, join_for filemail.group_li shown = Ok dups).
    { apply join_for_Ok. apply Forall_forall. intros [k ms] Hin.
      destruct (Hgroup (k, ms) Hin) as (inner & Hinner).
      unfold filemail.group_li. simpl in Hinner. rewrite Hinner. simpl. eauto. }
    destruct Hdups as (dups & Hdups).
    unfold filemail.report. fold shown. rewrite Hlarge, Hdocs, Hdups. simpl bind.
    eexists. split; [reflexivity|].
    intros k ms f Hkms Hmore Hf Hnone.
    assert (Hshown : In (k, ms) shown) by (apply filter_In; now split).
    destruct (join_for_contains _ _ _ _ Hdups Hshown) as (gi & Hgi & Hc1).
    destruct (Hgroup (k, ms) Hshown) as (inner & Hinner). simpl in Hinner.
    unfold filemail.group_li in Hgi. rewrite Hinner in Hgi. simpl in Hgi.
    injection Hgi as <-.
    destruct (join_for_contains _ _ _ _ Hinner Hf) as (mi & Hmi & Hc2).
    unfold filemail.member_li in Hmi. rewrite Hnone in Hmi. simpl in Hmi.
    injection Hmi as <-.
    eapply contains_trans; [|exact Hc2].
    eapply contains_trans; [|eapply contains_trans; [exact Hc1|]].
    + eapply contains_trans.
      * apply contains_concat with (x := f{"          "; dups}).
        simpl. tauto.
      * apply contains_append_r. simpl. apply contains_refl.
    + apply contains_concat. simpl. tauto.
  - intros Hlinks.
    assert (Hdocs : exists docs, join_for fm2.old_doc_li old_docs = Ok docs).
    { apply join_for_Ok. eapply Forall_impl; [|exact Hlinks]. intros file Hfile.
      simpl in Hfile.
      unfold fm2.old_doc_li. destruct (File.webViewLink file); [|congruence].
      simpl. eauto. }
    destruct Hdocs as (docs & Hdocs).
    unfold fm2.report. rewrite Hlarge, Hdocs. simpl bind. eauto.
Qed.

Lemma report_optional_fields_witness :
  let single :=
    File.mk "id-7" "single.bin" (Some 30000000) "" (Some []) None in
  let file_groups := [(("movie.mkv", 20000000), [orphan; housed]);
                      (("single.bin", 30000000), [single])] in
  (exists doc,
      filemail.report [housed] [old_doc] file_groups = Ok doc /\
      contains doc "<li>ID: id-1 (parent folder: unknown)</li>") /\
  (exists doc, fm2.report [housed] [old_doc] = Ok doc).
Proof.
  intros single file_groups.
  destruct (report_optional_fields [housed] [old_doc] file_groups)
    as ((doc & Hdoc & Hunknown) & Hfm2).
  - repeat constructor; discriminate.
  - intros k ms f [[= <- <-]|[[= <- <-]|[]]] Hmore.
    + intros [<-|[<-|[]]]; discriminate.
    + discriminate Hmore.
  - split.
    + exists doc. split; [exact Hdoc|].
      apply (Hunknown ("movie.mkv", 20000000) [orphan; housed] orphan).
      * simpl. tauto.
      * reflexivity.
      * simpl. tauto.
      * reflexivity.
    + apply Hfm2. repeat constructor; discriminate.
Defined.

(** A large-file record without a size makes the report fail with
    [KeyError]. *)
Lemma report_missing_size :
  filemail.report [sample "1" "big.iso" None] [] [] = Raise (KeyError "size").
Proof. reflexivity. Qed.

(** The report on a missing link and on an empty list of parents. *)
Example report_missing_link :
  fm2.report [] [sample "1" "Minutes" None] = Raise (KeyError "webViewLink").
Proof. reflexivity. Qed.

Example report_empty_parents :
  filemail.report [] []
    [(("movie.mkv", 20000000),
      [housed; File.mk "id-4" "movie.mkv" (Some 20000000) "" (Some []) None])] =
  Raise IndexError.
Proof. reflexivity. Qed.

(** ** The dispatcher *)

Lemma filemail_fetch_set_gmail (w : world) (answers : list send_result)
    (query : string) (size_filter limit : option Z) :
  filemail.fetch_files (set_gmail w answers) query size_filter limit =
  (fst (filemail.fetch_files w query size_filter limit),
   set_gmail (snd (filemail.fetch_files w query size_filter limit)) answers).
Proof.
  unfold filemail.fetch_files, set_gmail. simpl.
  destruct (filemail.while_true _ _ _ _ _ _ _ _ _) as [[[fs rest] calls] lg].
  reflexivity.
Qed.

Lemma fm2_fetch_set_gmail (w : world) (answers : list send_result)
    (query : string) (size_filter limit : option Z) :
  fm2.fetch_files (set_gmail w answers) query size_filter limit =
  (fst (fm2.fetch_files w query size_filter limit),
   set_gmail (snd (fm2.fetch_files w query size_filter limit)) answers).
Proof.
  unfold fm2.fetch_files, set_gmail. simpl.
  destruct (fm2.while_true _ _ _ _ _ _ _ _ _) as [[[fs rest] calls] lg].
  reflexivity.
Qed.

Lemma info_set_gmail (w : world) (answers : list send_result) (msg : string) :
  filemail.info (set_gmail w answers) msg = set_gmail (filemail.info w msg) answers.
Proof. reflexivity. Qed.

Lemma completes_bind {A : Type} (m : result A) (k1 k2 : A -> result world) :
  (forall a, completes (k1 a) <-> completes (k2 a)) ->
  completes (bind m k1) <-> completes (bind m k2).
Proof.
  intros H. destruct m as [a|e]; simpl; [apply H|].
  split; intros (w & Hw); discriminate.
Qed.

Lemma completes_Ok (w1 w2 : world) : completes (Ok w1) <-> completes (Ok w2).
Proof. split; intros _; eexists; reflexivity. Qed.

(** Whether [main] comes to its end does not depend on what the mail
    service answers. *)
Lemma filemail_main_set_gmail (w : world) (answers : list send_result)
    (t12 t24 : string) :
  completes (filemail.main (set_gmail w answers) t12 t24) <->
  completes (filemail.main w t12 t24).
Proof.
  unfold filemail.main.
  rewrite info_set_gmail, filemail_fetch_set_gmail.
  destruct (filemail.fetch_files (filemail.info w _) _ _ _)
    as [large_files w1]. cbn [fst snd].
  rewrite !info_set_gmail, filemail_fetch_set_gmail.
  destruct (filemail.fetch_files (filemail.info (filemail.info w1 _) _) _ _ _)
    as [old_docs w2]. cbn [fst snd].
  rewrite !info_set_gmail, filemail_fetch_set_gmail.
  destruct (filemail.fetch_files (filemail.info (filemail.info w2 _) _) _ _ _)
    as [raw w3]. cbn [fst snd].
  apply completes_bind. intros file_groups.
  apply completes_bind. intros text.
  apply completes_Ok.
Qed.

Lemma fm2_main_set_gmail (w : world) (answers : list send_result)
    (t12 t24 : string) :
  completes (fm2.main (set_gmail w answers) t12 t24) <->
  completes (fm2.main w t12 t24).
Proof.
  unfold fm2.main.
  rewrite fm2_fetch_set_gmail.
  destruct (fm2.fetch_files w _ _ _) as [large_files w1]. cbn [fst snd].
  rewrite fm2_fetch_set_gmail.
  destruct (fm2.fetch_files w1 _ _ _) as [old_docs w2]. cbn [fst snd].
  apply completes_bind. intros text.
  apply completes_Ok.
Qed.

(** C8: when the mail service answers with an error, [send_email] logs
    the error, issues no second request and returns; the line with the
    message identifier is logged on a successful send only; and whether
    the run comes to its end does not depend on the mail service. *)
Theorem send_email_failure (w : world) (text recipient error : string)
    (rest : list send_result) :
  gmail w = SendError error :: rest ->
  let sent := mkMessage recipient "Google Drive Report" "html" text in
  let failure := f{"An error occurred while sending email: "; error} in
  (log (filemail.send_email w text recipient) = log w ++ [ERROR failure] /\
   gmail_calls (filemail.send_email w text recipient) = gmail_calls w ++ [sent] /\
   gmail (filemail.send_email w text recipient) = rest) /\
  (log (fm2.send_email w text recipient) = log w ++ [PRINT failure] /\
   gmail_calls (fm2.send_email w text recipient) = gmail_calls w ++ [sent] /\
   gmail (fm2.send_email w text recipient) = rest) /\
  (forall message_id : string,
      let w' := set_gmail w (Sent message_id :: rest) in
      log (filemail.send_email w' text recipient) =
        log w ++ [INFO f{"Message Id: "; message_id}] /\
      log (fm2.send_email w' text recipient) =
        log w ++ [PRINT f{"Message Id: "; message_id}]) /\
  (forall (t12 t24 : string) (answers : list send_result),
      (completes (filemail.main w t12 t24) <->
       completes (filemail.main (set_gmail w answers) t12 t24)) /\
      (completes (fm2.main w t12 t24) <->
       completes (fm2.main (set_gmail w answers) t12 t24))).
Proof.
  intros Hgmail sent failure.
  split; [|split; [|split]].
  - unfold filemail.send_email. rewrite Hgmail. simpl. repeat split.
  - unfold fm2.send_email. rewrite Hgmail. simpl. repeat split.
  - intros message_id w'. split; reflexivity.
  - intros t12 t24 answers. split; symmetry.
    + apply filemail_main_set_gmail.
    + apply fm2_main_set_gmail.
Qed.

Lemma send_email_failure_witness :
  let w := mkWorld [] [] [SendError "quota exceeded"] [] [] in
  log (filemail.send_email w "<html></html>" "me@gmail.com") =
    [ERROR "An error occurred while sending email: quota exceeded"] /\
  List.length (gmail_calls (filemail.send_email w "<html></html>" "me@gmail.com"))
    = 1%nat /\
  completes (filemail.main w "2024-01-01" "2023-01-01").
Proof.
  intros w.
  destruct (send_email_failure w "<html></html>" "me@gmail.com"
              "quota exceeded" [] eq_refl)
    as ((Hlog & Hcalls & _) & _ & _ & Hruns).
  split; [exact Hlog|]. split; [now rewrite Hcalls|].
  apply (Hruns "2024-01-01" "2023-01-01" [Sent "m-1"]).
  eexists. vm_compute. reflexivity.
Defined.

(** ** Determinism of the report *)

(** The records returned and the answers left do not depend on the query,
    nor on the requests and lines recorded so far. *)
Lemma fm2_while_true_same_script (size_filter : option Z) (limit : Z)
    (script : list page_result) :
  forall (q1 q2 : string) (tok1 tok2 : option string) (fs : list File.t)
         (count : Z) (calls1 calls2 : list list_request)
         (lg1 lg2 : list log_record),
    let a := fm2.while_true q1 size_filter limit script tok1 fs count
               calls1 lg1 in
    let b := fm2.while_true q2 size_filter limit script tok2 fs count
               calls2 lg2 in
    outcome_files a = outcome_files b /\ outcome_script a = outcome_script b.
Proof.
  induction script as [|[r|error] script IH]; intros; subst a b; simpl.
  - split; reflexivity.
  - destruct (fm2.for_files size_filter limit (get (files r) []) fs count)
      as [[fs' count']|[fs' count']].
    + destruct (truthy_str (nextPageToken r)); simpl.
      * apply IH.
      * split; reflexivity.
    + split; reflexivity.
  - split; reflexivity.
Qed.

Lemma filemail_fetch_same_drive (w1 w2 : world) (q1 q2 : string)
    (size_filter limit : option Z) :
  drive w1 = drive w2 ->
  fst (filemail.fetch_files w1 q1 size_filter limit) =
    fst (filemail.fetch_files w2 q2 size_filter limit) /\
  drive (snd (filemail.fetch_files w1 q1 size_filter limit)) =
    drive (snd (filemail.fetch_files w2 q2 size_filter limit)).
Proof.
  intros Hdrive. rewrite !filemail_fetch_files_unfold. cbn zeta. simpl.
  set (lim := get limit filemail.default_limit).
  destruct (while_true_agree q1 size_filter lim (drive w1) None [] 0
              (drive_calls w1) (drive_calls w1) (log w1) (log w1) eq_refl)
    as (Hf1 & Hs1 & _).
  destruct (while_true_agree q2 size_filter lim (drive w2) None [] 0
              (drive_calls w2) (drive_calls w2) (log w2) (log w2) eq_refl)
    as (Hf2 & Hs2 & _).
  rewrite Hf1, Hs1, Hf2, Hs2, Hdrive.
  apply fm2_while_true_same_script.
Qed.

Lemma filemail_main_same_drive (w1 w2 : world) (t12 t24 t12' t24' : string) :
  drive w1 = drive w2 ->
  sent_document (filemail.main w1 t12 t24) =
  sent_document (filemail.main w2 t12' t24').
Proof.
  intros Hdrive. unfold filemail.main.
  destruct (filemail.fetch_files (filemail.info w1 _) _ _ _)
    as [large1 a1] eqn:E1.
  destruct (filemail.fetch_files (filemail.info w2 _) _ _ _)
    as [large2 a2] eqn:E2.
  match type of E1 with filemail.fetch_files ?x1 ?q1 ?sf ?l = _ =>
    match type of E2 with filemail.fetch_files ?x2 ?q2 _ _ = _ =>
      destruct (filemail_fetch_same_drive x1 x2 q1 q2 sf l Hdrive) as [Hf Hs]
    end end.
  rewrite E1, E2 in Hf, Hs. simpl in Hf, Hs. subst large2. clear E1 E2.
  destruct (filemail.fetch_files (filemail.info (filemail.info a1 _) _) _ _ _)
    as [docs1 b1] eqn:E1.
  destruct (filemail.fetch_files (filemail.info (filemail.info a2 _) _) _ _ _)
    as [docs2 b2] eqn:E2.
  match type of E1 with filemail.fetch_files ?x1 ?q1 ?sf ?l = _ =>
    match type of E2 with filemail.fetch_files ?x2 ?q2 _ _ = _ =>
      destruct (filemail_fetch_same_drive x1 x2 q1 q2 sf l Hs) as [Hf' Hs']
    end end.
  rewrite E1, E2 in Hf', Hs'. simpl in Hf', Hs'. subst docs2. clear E1 E2.
  destruct (filemail.fetch_files (filemail.info (filemail.info b1 _) _) _ _ _)
    as [raw1 c1] eqn:E1.
  destruct (filemail.fetch_files (filemail.info (filemail.info b2 _) _) _ _ _)
    as [raw2 c2] eqn:E2.
  match type of E1 with filemail.fetch_files ?x1 ?q1 ?sf ?l = _ =>
    match type of E2 with filemail.fetch_files ?x2 ?q2 _ _ = _ =>
      destruct (filemail_fetch_same_drive x1 x2 q1 q2 sf l Hs') as [Hf'' Hs'']
    end end.
  rewrite E1, E2 in Hf'', Hs''. simpl in Hf'', Hs''. subst raw2. clear E1 E2.
  destruct (filemail.process_duplicate_files raw1) as [file_groups|e];
    simpl; [|reflexivity].
  destruct (filemail.report large1 docs1 file_groups) as [text|e];
    simpl; [|reflexivity].
  unfold filemail.send_email. simpl.
  destruct (gmail c1), (gmail c2); simpl; rewrite !map_app; simpl map;
    now rewrite !last_last.
Qed.

(** C7: the report is a function of its sections: equal section data in
    equal order give equal documents; and two runs that receive the same
    answers from the listing hand the same document to the mail service,
    whatever their clocks, their earlier output and the mail service do. *)
Theorem report_deterministic :
  (forall (large1 large2 docs1 docs2 : list File.t)
          (groups1 groups2 : filemail.groups),
      large1 = large2 -> docs1 = docs2 -> groups1 = groups2 ->
      filemail.report large1 docs1 groups1 =
      filemail.report large2 docs2 groups2) /\
  (forall (w1 w2 : world) (t12 t24 t12' t24' : string),
      drive w1 = drive w2 ->
      sent_document (filemail.main w1 t12 t24) =
      sent_document (filemail.main w2 t12' t24')).
Proof.
  split.
  - intros; subst; reflexivity.
  - intros. now apply filemail_main_same_drive.
Qed.

Lemma report_deterministic_witness :
  let script := [Page page_one; Page page_three; HttpError "500"] in
  let w1 := mkWorld script [] [Sent "m-1"] [] [] in
  let w2 := mkWorld script [] [SendError "quota"] [] [INFO "earlier run"] in
  sent_document (filemail.main w1 "2024-11-04T00:00:00" "2023-11-05T00:00:00") =
  sent_document (filemail.main w2 "2025-01-01T00:00:00" "2024-01-02T00:00:00").
Proof.
  intros script w1 w2.
  destruct report_deterministic as [_ Hruns].
  apply Hruns. reflexivity.
Defined.

(** * Further properties of the code *)

(** ** The page loop of filemail.py, with its requests and log *)

Lemma progress_app (count : Z) (a b : nat) :
  progress count (a + b) =
  progress count a ++ progress (count + Z.of_nat a) b.
Proof.
  revert count. induction a as [|a IH]; intros count.
  - simpl. now rewrite Z.add_0_r.
  - cbn [progress Nat.add]. rewrite IH, <- app_assoc. do 3 f_equal. lia.
Qed.

Section FilemailLoop.

Variables (query : string) (size_filter : option Z) (limit : Z).

Lemma filemail_for_files_spec (page fs : list File.t) (count : Z)
    (lg : list log_record) :
  filemail.for_files size_filter limit page fs count lg =
  let acc := accepted size_filter page in
  let k := room limit count in
  if (k <=? List.length acc)%nat
  then Return (fs ++ firstn k acc, count + Z.of_nat k, lg ++ progress count k)
  else Next (fs ++ acc, count + Z.of_nat (List.length acc),
             lg ++ progress count (List.length acc)).
Proof.
  revert fs count lg.
  induction page as [|file page IH]; intros fs count lg; cbn zeta.
  - simpl. unfold room.
    destruct (Nat.leb_spec (Z.to_nat (Z.max 1 (limit - count))) 0) as [H|H].
    + exfalso. lia.
    + now rewrite !app_nil_r, Z.add_0_r.
  - simpl. destruct (skips size_filter file) eqn:Hs; simpl.
    + apply IH.
    + rewrite IH; clear IH. cbn zeta.
      assert (Hlg : (if (count + 1) mod 100 =? 0
                     then lg ++ [INFO f{"Fetched "; str (count + 1);
                                        " files so far..."}]
                     else lg) =
                    lg ++ (if (count + 1) mod 100 =? 0
                           then [INFO f{"Fetched "; str (count + 1);
                                        " files so far..."}]
                           else [])).
      { destruct ((count + 1) mod 100 =? 0); [reflexivity|].
        now rewrite app_nil_r. }
      rewrite Hlg.
      destruct (Z.geb_spec (count + 1) limit) as [Hge|Hlt].
      * assert (Hk : room limit count = 1%nat) by (unfold room; lia).
        rewrite Hk. simpl. now rewrite app_nil_r.
      * assert (Hk : room limit count = S (room limit (count + 1)))
          by (unfold room; lia).
        rewrite Hk. simpl.
        destruct (Nat.leb_spec (room limit (count + 1))
                    (List.length (accepted size_filter page))).
        -- rewrite <- !app_assoc. simpl. f_equal. f_equal. f_equal. lia.
        -- rewrite <- !app_assoc. simpl. f_equal. f_equal. f_equal. lia.
Qed.

Lemma room_after (count : Z) (n : nat) :
  (n < room limit count)%nat ->
  room limit (count + Z.of_nat n) = (room limit count - n)%nat.
Proof. unfold room. lia. Qed.

(** Pages that all carry a token and leave room are gone through: one
    request each, carrying the token of the page before. *)
Lemma filemail_while_true_prefix (pre : list response)
    (tail : list page_result) :
  forall (tok : option string) (fs : list File.t) (count : Z)
         (calls : list list_request) (lg : list log_record),
    Forall continues pre ->
    (List.length (accepted size_filter (records pre)) < room limit count)%nat ->
    filemail.while_true query size_filter limit (map Page pre ++ tail) tok fs
      count calls lg =
    filemail.while_true query size_filter limit tail (next_token tok pre)
      (fs ++ accepted size_filter (records pre))
      (count + Z.of_nat (List.length (accepted size_filter (records pre))))
      (calls ++ map (list_request_for query filemail.list_fields)
                  (page_tokens tok pre))
      (lg ++ progress count
               (List.length (accepted size_filter (records pre)))).
Proof.
  induction pre as [|r pre IH]; intros tok fs count calls lg Hall Hroom.
  - simpl. now rewrite !app_nil_r, Z.add_0_r.
  - inversion Hall as [|? ? Hr Hpre]; subst.
    unfold records in Hroom |- *. simpl flat_map in Hroom |- *.
    fold (records pre) in Hroom |- *.
    rewrite accepted_app, length_app in Hroom |- *.
    simpl. rewrite filemail_for_files_spec. cbn zeta. fold (page_files r).
    destruct (Nat.leb_spec (room limit count)
                (List.length (accepted size_filter (page_files r))))
      as [Hle|Hgt]; [lia|].
    unfold continues in Hr. rewrite Hr. simpl.
    rewrite IH; trivial.
    + f_equal.
      * now rewrite <- app_assoc.
      * lia.
      * now rewrite <- app_assoc.
      * now rewrite <- app_assoc, progress_app.
    + rewrite room_after by lia. lia.
Qed.

End FilemailLoop.

Lemma room_after0 (limit : Z) (n : nat) :
  (n < room limit 0)%nat -> room limit (Z.of_nat n) = (room limit 0 - n)%nat.
Proof. unfold room. lia. Qed.

Lemma progress_app0 (a b : nat) :
  progress 0 (a + b) = progress 0 a ++ progress (Z.of_nat a) b.
Proof. apply progress_app. Qed.

Lemma page_tokens_snoc (tok : option string) (pre : list response)
    (r : response) :
  page_tokens tok (pre ++ [r]) = page_tokens tok pre ++ [next_token tok pre].
Proof.
  revert tok. induction pre as [|p pre IH]; intros tok; simpl.
  - reflexivity.
  - now rewrite IH.
Qed.

Lemma records_snoc (size_filter : option Z) (pre : list response)
    (r : response) :
  accepted size_filter (records (pre ++ [r])) =
  accepted size_filter (records pre) ++ accepted size_filter (page_files r).
Proof.
  unfold records. rewrite flat_map_app. simpl. now rewrite app_nil_r, accepted_app.
Qed.

(** The whole outcome of [filemail.fetch_files] when the listing ends on a
    page without a token before the limit is reached. *)
Lemma filemail_fetch_exhausted (w : world) (query : string)
    (size_filter limit : option Z) (pre : list response) (r : response)
    (rest : list page_result) :
  drive w = map Page pre ++ Page r :: rest ->
  Forall continues pre ->
  truthy_str (nextPageToken r) = false ->
  (List.length (accepted size_filter (records (pre ++ [r])))
   < room (get limit filemail.default_limit) 0)%nat ->
  let fs := accepted size_filter (records (pre ++ [r])) in
  filemail.fetch_files w query size_filter limit =
  (fs,
   mkWorld rest
     (drive_calls w ++ map (list_request_for query filemail.list_fields)
                         (page_tokens None (pre ++ [r])))
     (gmail w) (gmail_calls w)
     (log w ++ progress 0 (List.length fs) ++ [total_line (List.length fs)])).
Proof.
  intros Hscript Hall Hend Hroom fs. subst fs.
  rewrite records_snoc, length_app in *.
  unfold filemail.fetch_files. cbn zeta. rewrite Hscript.
  rewrite filemail_while_true_prefix by (trivial; lia).
  simpl. rewrite filemail_for_files_spec. cbn zeta. fold (page_files r).
  rewrite room_after0 by lia.
  destruct (Nat.leb_spec
              (room (get limit filemail.default_limit) 0
               - List.length (accepted size_filter (records pre)))
              (List.length (accepted size_filter (page_files r))))
    as [Hle|Hgt]; [lia|].
  rewrite Hend. simpl. unfold filemail.after_loop, total_line.
  rewrite page_tokens_snoc, map_app, progress_app0. simpl.
  rewrite <- !app_assoc. simpl.
  repeat f_equal. lia.
Qed.

(** The whole outcome when a request fails before the limit is reached. *)
Lemma filemail_fetch_failed (w : world) (query : string)
    (size_filter limit : option Z) (pre : list response) (error : string)
    (rest : list page_result) :
  drive w = map Page pre ++ HttpError error :: rest ->
  Forall continues pre ->
  (List.length (accepted size_filter (records pre))
   < room (get limit filemail.default_limit) 0)%nat ->
  let fs := accepted size_filter (records pre) in
  filemail.fetch_files w query size_filter limit =
  (fs,
   mkWorld rest
     (drive_calls w ++ map (list_request_for query filemail.list_fields)
                         (page_tokens None pre ++ [next_token None pre]))
     (gmail w) (gmail_calls w)
     (log w ++ progress 0 (List.length fs)
        ++ [ERROR f{"An error occurred while fetching files: "; error};
            total_line (List.length fs)])).
Proof.
  intros Hscript Hall Hroom fs. subst fs.
  unfold filemail.fetch_files. cbn zeta. rewrite Hscript.
  rewrite filemail_while_true_prefix by trivial.
  simpl. unfold filemail.after_loop, total_line.
  rewrite map_app. simpl. rewrite <- !app_assoc. reflexivity.
Qed.

(** The whole outcome when the count reaches the limit on the page [r]. *)
Lemma filemail_fetch_cut (w : world) (query : string)
    (size_filter limit : option Z) (pre : list response) (r : response)
    (rest : list page_result) :
  drive w = map Page pre ++ Page r :: rest ->
  Forall continues pre ->
  (List.length (accepted size_filter (records pre))
   < room (get limit filemail.default_limit) 0)%nat ->
  (room (get limit filemail.default_limit) 0
   <= List.length (accepted size_filter (records (pre ++ [r]))))%nat ->
  let n := room (get limit filemail.default_limit) 0 in
  filemail.fetch_files w query size_filter limit =
  (firstn n (accepted size_filter (records (pre ++ [r]))),
   mkWorld rest
     (drive_calls w ++ map (list_request_for query filemail.list_fields)
                         (page_tokens None (pre ++ [r])))
     (gmail w) (gmail_calls w)
     (log w ++ progress 0 n)).
Proof.
  intros Hscript Hall Hlt Hge n. subst n.
  rewrite records_snoc in *. rewrite length_app in Hge.
  unfold filemail.fetch_files. cbn zeta. rewrite Hscript.
  rewrite filemail_while_true_prefix by trivial.
  simpl. rewrite filemail_for_files_spec. cbn zeta. fold (page_files r).
  rewrite room_after0 by lia.
  destruct (Nat.leb_spec
              (room (get limit filemail.default_limit) 0
               - List.length (accepted size_filter (records pre)))
              (List.length (accepted size_filter (page_files r))))
    as [Hle|Hgt]; [|lia].
  rewrite page_tokens_snoc, map_app. simpl.
  rewrite firstn_app.
  rewrite (firstn_all2 (accepted size_filter (records pre))) by lia.
  rewrite <- !app_assoc. f_equal. f_equal. f_equal.
  rewrite <- progress_app0. f_equal. lia.
Qed.

(** ** How a fetch ends, what it requests and what it logs *)

(** X1: the listing is exhausted at the first page whose token is absent
    or the empty string: below the limit, [fetch_files] returns every
    record that passes the size test, in page order, and asks for no page
    after that one. *)
Theorem fetch_files_exhaustion (w : world) (query : string)
    (size_filter limit : option Z) (pre : list response) (r : response)
    (rest : list page_result) :
  drive w = map Page pre ++ Page r :: rest ->
  Forall continues pre ->
  nextPageToken r = None \/ nextPageToken r = Some "" ->
  (List.length (accepted size_filter (records (pre ++ [r])))
   < room (get limit filemail.default_limit) 0)%nat ->
  let out := filemail.fetch_files w query size_filter limit in
  fst out = accepted size_filter (records (pre ++ [r])) /\
  drive (snd out) = rest /\
  List.length (drive_calls (snd out)) =
    (List.length (drive_calls w) + List.length pre + 1)%nat.
Proof.
  intros Hscript Hall Hend Hroom out. subst out.
  rewrite (filemail_fetch_exhausted w query size_filter limit pre r rest);
    trivial.
  - simpl. repeat split.
    rewrite length_app, length_map, page_tokens_snoc, length_app. simpl.
    assert (Hlen : forall tok, List.length (page_tokens tok pre) = List.length pre).
    { clear. induction pre as [|p pre IH]; intros tok; simpl; auto. }
    rewrite Hlen. lia.
  - destruct Hend as [-> | ->]; reflexivity.
Qed.

Lemma fetch_files_exhaustion_witness :
  let last_page := mkResponse (Some [sample "9" "z.bin" (Some 1)]) (Some "") in
  let w := sample_world [Page page_one; Page last_page; Page page_two] in
  let out := filemail.fetch_files w "q" None None in
  fst out = [sample "1" "a.bin" (Some 50); sample "2" "b.bin" (Some 7);
             sample "9" "z.bin" (Some 1)] /\
  drive (snd out) = [Page page_two] /\
  List.length (drive_calls (snd out)) = 2%nat.
Proof.
  intros last_page w out.
  apply (fetch_files_exhaustion w "q" None None [page_one] last_page
           [Page page_two]).
  - reflexivity.
  - repeat constructor.
  - right. reflexivity.
  - vm_compute. lia.
Defined.

(** Every run of the loop issues a request carrying the token in hand, and
    all its requests are made for the same query. *)
Lemma filemail_while_true_calls (query : string) (size_filter : option Z)
    (limit : Z) (script : list page_result) :
  forall (tok : option string) (fs : list File.t) (count : Z)
         (calls : list list_request) (lg : list log_record),
  exists more : list (option string),
    outcome_calls (filemail.while_true query size_filter limit script tok fs
                     count calls lg) =
    calls ++ map (list_request_for query filemail.list_fields) (tok :: more).
Proof.
  induction script as [|[r|error] script IH]; intros tok fs count calls lg.
  - exists []. reflexivity.
  - simpl.
    destruct (filemail.for_files size_filter limit (get (files r) []) fs
                count lg) as [[[fs' count'] lg']|[[fs' count'] lg']].
    + destruct (truthy_str (nextPageToken r)); simpl.
      * destruct (IH (nextPageToken r) fs' count'
                    (calls ++ [mkListRequest query "drive" filemail.list_fields
                                 tok 1000]) lg') as (more & Hmore).
        exists (nextPageToken r :: more). rewrite Hmore.
        now rewrite <- app_assoc.
      * exists []. reflexivity.
    + exists []. reflexivity.
  - exists []. reflexivity.
Qed.

(** X2: whatever the limit and the answers, [fetch_files] issues at least
    one listing request; the first carries no page token, and every request
    asks for the given query in the space "drive" with a page size of
    1000 and the same fields. *)
Theorem fetch_files_requests (w : world) (query : string)
    (size_filter limit : option Z) :
  exists more : list list_request,
    drive_calls (snd (filemail.fetch_files w query size_filter limit)) =
      drive_calls w
        ++ mkListRequest query "drive" filemail.list_fields None 1000 :: more /\
    Forall (fun c => q c = query /\ spaces c = "drive" /\
                     fields c = filemail.list_fields /\ pageSize c = 1000)
      more.
Proof.
  rewrite filemail_fetch_files_unfold. cbn zeta. simpl.
  destruct (filemail_while_true_calls query size_filter
              (get limit filemail.default_limit) (drive w) None [] 0
              (drive_calls w) (log w)) as (more & Hmore).
  exists (map (list_request_for query filemail.list_fields) more).
  split; [exact Hmore|].
  apply Forall_forall. intros c Hc. apply in_map_iff in Hc.
  destruct Hc as (t & <- & _). repeat split.
Qed.

(** X3: the page tokens are threaded: while the pages carry a token and
    the limit is not reached, the request after a page carries that page's
    [nextPageToken]. *)
Theorem fetch_files_page_tokens (w : world) (query : string)
    (size_filter limit : option Z) (pre : list response)
    (tail : list page_result) :
  drive w = map Page pre ++ tail ->
  Forall continues pre ->
  (List.length (accepted size_filter (records pre))
   < room (get limit filemail.default_limit) 0)%nat ->
  exists more : list list_request,
    drive_calls (snd (filemail.fetch_files w query size_filter limit)) =
      drive_calls w
        ++ map (list_request_for query filemail.list_fields)
             (None :: map nextPageToken pre)
        ++ more.
Proof.
  intros Hscript Hall Hroom.
  rewrite filemail_fetch_files_unfold. cbn zeta. simpl. rewrite Hscript.
  rewrite filemail_while_true_prefix by trivial.
  destruct (filemail_while_true_calls query size_filter
              (get limit filemail.default_limit) tail (next_token None pre)
              ([] ++ accepted size_filter (records pre))
              (0 + Z.of_nat (List.length (accepted size_filter (records pre))))
              (drive_calls w ++ map (list_request_for query filemail.list_fields)
                                  (page_tokens None pre))
              (log w ++ progress 0
                          (List.length (accepted size_filter (records pre)))))
    as (more & Hmore).
  exists (map (list_request_for query filemail.list_fields) more).
  rewrite Hmore, <- !app_assoc. f_equal.
  rewrite <- map_app, <- map_app. f_equal.
  assert (Htok : forall tok,
             page_tokens tok pre ++ [next_token tok pre] =
             tok :: map nextPageToken pre).
  { clear. induction pre as [|p pre IH]; intros tok; simpl.
    - reflexivity.
    - now rewrite IH. }
  change (next_token None pre :: more) with ([next_token None pre] ++ more).
  now rewrite app_assoc, Htok.
Qed.

Lemma fetch_files_page_tokens_witness :
  let w := sample_world [Page page_one; Page page_two; Page page_three] in
  exists more : list list_request,
    drive_calls (snd (filemail.fetch_files w "q" None None)) =
      map (list_request_for "q" filemail.list_fields)
        [None; Some "token-1"; Some "token-2"] ++ more.
Proof.
  intros w.
  destruct (fetch_files_page_tokens w "q" None None [page_one; page_two]
              [Page page_three]) as (more & Hmore).
  - reflexivity.
  - repeat constructor.
  - vm_compute. lia.
  - exists more. exact Hmore.
Defined.

(** One progress line per multiple of 100 that the count passes. *)
Lemma progress_length (count : Z) (n : nat) :
  0 <= count ->
  Z.of_nat (List.length (progress count n)) =
  (count + Z.of_nat n) / 100 - count / 100.
Proof.
  revert count. induction n as [|n IH]; intros count Hcount.
  - simpl. rewrite Z.add_0_r. lia.
  - cbn [progress]. rewrite length_app, Nat2Z.inj_add, IH by lia.
    replace (count + 1 + Z.of_nat n) with (count + Z.of_nat (S n)) by lia.
    generalize ((count + Z.of_nat (S n)) / 100). intros d.
    destruct (Z.eqb_spec ((count + 1) mod 100) 0) as [H|H];
      cbn [List.length Z.of_nat Pos.of_succ_nat];
      Z.div_mod_to_equations; lia.
Qed.

Lemma progress_no_total (count : Z) (n m : nat) :
  ~ In (total_line m) (progress count n).
Proof.
  revert count. induction n as [|n IH]; intros count Hin; simpl in Hin.
  - exact Hin.
  - apply in_app_or in Hin. destruct Hin as [Hin|Hin].
    + destruct ((count + 1) mod 100 =? 0); simpl in Hin.
      * destruct Hin as [Heq|[]]. unfold total_line in Heq.
        injection Heq as Heq. discriminate Heq.
      * exact Hin.
    + now apply IH in Hin.
Qed.

(** X4: when the listing is exhausted below the limit, filemail.py has
    logged one progress line at every hundredth record and ends with the
    total line, whose count is the number of records returned. *)
Theorem fetch_files_log_exhausted (w : world) (query : string)
    (size_filter limit : option Z) (pre : list response) (r : response)
    (rest : list page_result) :
  drive w = map Page pre ++ Page r :: rest ->
  Forall continues pre ->
  truthy_str (nextPageToken r) = false ->
  (List.length (accepted size_filter (records (pre ++ [r])))
   < room (get limit filemail.default_limit) 0)%nat ->
  let out := filemail.fetch_files w query size_filter limit in
  let n := List.length (fst out) in
  log (snd out) = log w ++ progress 0 n ++ [total_line n] /\
  Z.of_nat (List.length (progress 0 n)) = Z.of_nat n / 100.
Proof.
  intros Hscript Hall Hend Hroom out n. subst n out.
  rewrite (filemail_fetch_exhausted w query size_filter limit pre r rest)
    by trivial.
  simpl. split; [reflexivity|].
  rewrite progress_length by lia.
  rewrite Z.add_0_l. change (0 / 100) with 0. lia.
Qed.

Lemma fetch_files_log_exhausted_witness :
  let w := sample_world [Page page_one; Page page_three; Page page_two] in
  log (snd (filemail.fetch_files w "q" None None)) =
  [INFO "Total files fetched: 3"].
Proof.
  intros w.
  destruct (fetch_files_log_exhausted w "q" None None [page_one] page_three
              [Page page_two]) as (Hlog & _).
  - reflexivity.
  - repeat constructor.
  - reflexivity.
  - vm_compute. lia.
  - exact Hlog.
Defined.

(** X5: when the count reaches the limit, [fetch_files] returns from
    inside the loop: only the progress lines are logged, and the total
    line is not. *)
Theorem fetch_files_log_cut (w : world) (query : string)
    (size_filter limit : option Z) (pre : list response) (r : response)
    (rest : list page_result) :
  drive w = map Page pre ++ Page r :: rest ->
  Forall continues pre ->
  (List.length (accepted size_filter (records pre))
   < room (get limit filemail.default_limit) 0)%nat ->
  (room (get limit filemail.default_limit) 0
   <= List.length (accepted size_filter (records (pre ++ [r]))))%nat ->
  let out := filemail.fetch_files w query size_filter limit in
  let n := List.length (fst out) in
  log (snd out) = log w ++ progress 0 n /\
  (forall m, ~ In (total_line m) (progress 0 n)).
Proof.
  intros Hscript Hall Hlt Hge out n. subst n out.
  rewrite (filemail_fetch_cut w query size_filter limit pre r rest)
    by trivial.
  simpl. rewrite length_firstn, Nat.min_l by exact Hge.
  split; [reflexivity|]. intros m. apply progress_no_total.
Qed.

Lemma fetch_files_log_cut_witness :
  let w := sample_world [Page page_one; Page page_two; Page page_three] in
  log (snd (filemail.fetch_files w "q" None (Some 3))) = [].
Proof.
  intros w.
  destruct (fetch_files_log_cut w "q" None (Some 3) [page_one] page_two
              [Page page_three]) as (Hlog & _).
  - reflexivity.
  - repeat constructor.
  - vm_compute. lia.
  - vm_compute. lia.
  - exact Hlog.
Defined.

(** X6: when a page request fails, filemail.py logs the error once and
    then the total line, whose count is the number of records returned
    from the earlier pages. *)
Theorem fetch_files_log_failure (w : world) (query : string)
    (size_filter limit : option Z) (pre : list response) (error : string)
    (rest : list page_result) :
  drive w = map Page pre ++ HttpError error :: rest ->
  Forall continues pre ->
  (List.length (accepted size_filter (records pre))
   < room (get limit filemail.default_limit) 0)%nat ->
  let out := filemail.fetch_files w query size_filter limit in
  let n := List.length (fst out) in
  log (snd out) =
    log w ++ progress 0 n
      ++ [ERROR f{"An error occurred while fetching files: "; error};
          total_line n].
Proof.
  intros Hscript Hall Hroom out n. subst n out.
  rewrite (filemail_fetch_failed w query size_filter limit pre error rest)
    by trivial.
  reflexivity.
Qed.

Lemma fetch_files_log_failure_witness :
  let w := sample_world [Page page_one; HttpError "503"; Page page_three] in
  log (snd (filemail.fetch_files w "q" None None)) =
  [ERROR "An error occurred while fetching files: 503";
   INFO "Total files fetched: 2"].
Proof.
  intros w.
  apply (fetch_files_log_failure w "q" None None [page_one] "503"
           [Page page_three]).
  - reflexivity.
  - repeat constructor.
  - vm_compute. lia.
Defined.

Example progress_250 :
  progress 0 250 =
  [INFO "Fetched 100 files so far..."; INFO "Fetched 200 files so far..."].
Proof. vm_compute. reflexivity. Qed.

Lemma fm2_while_true_log (query : string) (size_filter : option Z)
    (limit : Z) (script : list page_result) :
  forall (tok : option string) (fs : list File.t) (count : Z)
         (calls : list list_request) (lg : list log_record),
    let out := fm2.while_true query size_filter limit script tok fs count
                 calls lg in
    outcome_log out = lg \/
    exists error,
      outcome_log out =
      lg ++ [PRINT f{"An error occurred while fetching files: "; error}].
Proof.
  induction script as [|[r|error] script IH]; intros tok fs count calls lg;
    cbn zeta.
  - right. exists unavailable. reflexivity.
  - simpl.
    destruct (fm2.for_files size_filter limit (get (files r) []) fs count)
      as [[fs' count']|[fs' count']].
    + destruct (truthy_str (nextPageToken r)); simpl.
      * apply IH.
      * now left.
    + now left.
  - right. exists error. reflexivity.
Qed.

(** X7: fm2.py's [fetch_files] prints nothing while it fetches: its output
    is unchanged, or is longer by the one line of a failed request. *)
Theorem fm2_fetch_files_output (w : world) (query : string)
    (size_filter limit : option Z) :
  let out := fm2.fetch_files w query size_filter limit in
  log (snd out) = log w \/
  exists error,
    log (snd out) =
    log w ++ [PRINT f{"An error occurred while fetching files: "; error}].
Proof.
  cbn zeta. rewrite fm2_fetch_files_unfold. cbn zeta. simpl.
  apply fm2_while_true_log.
Qed.

(** X8: raising the limit only appends records: the result for a limit is
    the leading part of the result for any greater limit. *)
Theorem fetch_files_limit_monotone (w : world) (query : string)
    (size_filter : option Z) (limit1 limit2 : Z) :
  1 <= limit1 -> limit1 <= limit2 ->
  fst (filemail.fetch_files w query size_filter (Some limit1)) =
  firstn (Z.to_nat limit1)
    (fst (filemail.fetch_files w query size_filter (Some limit2))).
Proof.
  intros H1 H12. rewrite !filemail_fetch_files_files. simpl get.
  rewrite !room_positive by lia.
  rewrite firstn_firstn. f_equal. lia.
Qed.

Lemma fetch_files_limit_monotone_witness :
  let w := sample_world [Page page_one; Page page_two; Page page_three] in
  fst (filemail.fetch_files w "q" None (Some 2)) =
  firstn 2 (fst (filemail.fetch_files w "q" None (Some 4))).
Proof.
  intros w.
  apply (fetch_files_limit_monotone w "q" None 2 4); lia.
Defined.

(** ** What a run can raise *)

Lemma join_for_Raise {A : Type} (f : A -> result string) (xs : list A)
    (e : exn) :
  join_for f xs = Raise e -> exists x, In x xs /\ f x = Raise e.
Proof.
  induction xs as [|x xs IH]; simpl; intros Hrun; [discriminate|].
  destruct (f x) as [s|e'] eqn:Ex; simpl in Hrun.
  - destruct (join_for f xs) as [rest|e'']; simpl in Hrun; [discriminate|].
    destruct (IH Hrun) as (y & Hy & Hfy). exists y. split; [now right|exact Hfy].
  - exists x. split; [now left|congruence].
Qed.

(** The first item that fails decides the exception. *)
Lemma join_for_raises {A : Type} (f : A -> result string) (xs : list A)
    (e : exn) :
  (forall x e', In x xs -> f x = Raise e' -> e' = e) ->
  (exists x, In x xs /\ f x = Raise e) ->
  join_for f xs = Raise e.
Proof.
  induction xs as [|x xs IH]; intros Honly (y & Hy & Hfy); [destruct Hy|].
  simpl. destruct (f x) as [s|e'] eqn:Ex; simpl.
  - rewrite IH; trivial.
    + intros z e' Hz. apply Honly. now right.
    + destruct Hy as [->|Hy]; [congruence|]. now exists y.
  - f_equal. apply (Honly x); [now left|exact Ex].
Qed.

Lemma member_li_Raise (f : File.t) (e : exn) :
  filemail.member_li f = Raise e ->
  e = IndexError /\ File.parents f = Some [].
Proof.
  unfold filemail.member_li.
  destruct (File.parents f) as [[|p ps]|]; simpl; intros H;
    try discriminate. injection H as <-. now split.
Qed.

Lemma group_li_Raise (entry : filemail.key * list File.t) (e : exn) :
  filemail.group_li entry = Raise e ->
  e = IndexError /\ exists f, In f (snd entry) /\ File.parents f = Some [].
Proof.
  destruct entry as [k ms]. unfold filemail.group_li.
  destruct (join_for filemail.member_li ms) as [inner|e'] eqn:E; simpl;
    intros H; [discriminate|].
  injection H as <-. apply join_for_Raise in E. destruct E as (f & Hf & Hraise).
  apply member_li_Raise in Hraise. destruct Hraise as [-> Hp].
  split; [reflexivity|]. now exists f.
Qed.

(** The records a fetch with a positive threshold returns carry a size. *)
Lemma filemail_fetched_sized (w w' : world) (query : string) (threshold : Z)
    (limit : option Z) (fs : list File.t) :
  0 < threshold ->
  filemail.fetch_files w query (Some threshold) limit = (fs, w') ->
  Forall (fun file => File.size file <> None) fs.
Proof.
  intros Hpos Hfetch.
  assert (Hfs : fs = fst (filemail.fetch_files w query (Some threshold) limit))
    by now rewrite Hfetch.
  rewrite filemail_fetch_files_files, accepted_threshold in Hfs by lia.
  apply Forall_forall. intros file Hin. rewrite Hfs in Hin.
  apply in_firstn, filter_In in Hin. destruct Hin as [_ Hlt].
  apply Z.ltb_lt in Hlt. destruct (File.size file); [discriminate|].
  simpl in Hlt. lia.
Qed.

Lemma fm2_fetch_files_files (w : world) (query : string)
    (size_filter limit : option Z) :
  fst (fm2.fetch_files w query size_filter limit) =
  firstn (room (get limit fm2.default_limit) 0)
    (accepted size_filter (served (drive w))).
Proof.
  rewrite fm2_fetch_files_unfold. cbn zeta. simpl fst.
  now rewrite fm2_while_true_files.
Qed.

Lemma fm2_fetched_sized (w w' : world) (query : string) (threshold : Z)
    (limit : option Z) (fs : list File.t) :
  0 < threshold ->
  fm2.fetch_files w query (Some threshold) limit = (fs, w') ->
  Forall (fun file => File.size file <> None) fs.
Proof.
  intros Hpos Hfetch.
  assert (Hfs : fs = fst (fm2.fetch_files w query (Some threshold) limit))
    by now rewrite Hfetch.
  rewrite fm2_fetch_files_files, accepted_threshold in Hfs by lia.
  apply Forall_forall. intros file Hin. rewrite Hfs in Hin.
  apply in_firstn, filter_In in Hin. destruct Hin as [_ Hlt].
  apply Z.ltb_lt in Hlt. destruct (File.size file); [discriminate|].
  simpl in Hlt. lia.
Qed.

(** X9: in filemail.py's [main] the records of the large-files and of the
    duplicates sections come through the 10 MB size filter and so carry a
    size: the grouping never fails and [main] never raises [KeyError]; the
    one exception it can raise is the [IndexError] of an empty list of
    parents. *)
Theorem filemail_main_raises (w : world) (t12 t24 : string) :
  match filemail.main w t12 t24 with
  | Ok _ => True
  | Raise e => e = IndexError
  end.
Proof.
  unfold filemail.main.
  destruct (filemail.fetch_files (filemail.info w _) _ _ _)
    as [large_files w1] eqn:E1.
  destruct (filemail.fetch_files (filemail.info (filemail.info w1 _) _) _ _ _)
    as [old_docs w2] eqn:E2.
  destruct (filemail.fetch_files (filemail.info (filemail.info w2 _) _) _ _ _)
    as [raw w3] eqn:E3.
  apply filemail_fetched_sized in E1; [|lia].
  apply filemail_fetched_sized in E3; [|lia].
  destruct (process_sized raw E3) as (g & Hg & _). rewrite Hg. simpl bind.
  unfold filemail.report.
  destruct (large_files_ul large_files E1) as (large & Hlarge).
  rewrite Hlarge. simpl bind.
  assert (Hdocs : exists docs, join_for filemail.old_doc_li old_docs = Ok docs).
  { apply join_for_Ok. apply Forall_forall. intros file _.
    unfold filemail.old_doc_li. eauto. }
  destruct Hdocs as (docs & Hdocs). rewrite Hdocs. simpl bind.
  destruct (join_for filemail.group_li _) as [dups|e] eqn:Edups; simpl.
  - exact I.
  - apply join_for_Raise in Edups. destruct Edups as (entry & _ & Hraise).
    now apply group_li_Raise in Hraise.
Qed.

(** X10: in fm2.py's [main] the large files come through the 20 MB size
    filter and so carry a size; the one exception [main] can raise is the
    [KeyError] of an old document without a [webViewLink]. *)
Theorem fm2_main_raises (w : world) (t12 t24 : string) :
  match fm2.main w t12 t24 with
  | Ok _ => True
  | Raise e => e = KeyError "webViewLink"
  end.
Proof.
  unfold fm2.main.
  destruct (fm2.fetch_files w _ _ _) as [large_files w1] eqn:E1.
  destruct (fm2.fetch_files w1 _ _ _) as [old_docs w2] eqn:E2.
  apply fm2_fetched_sized in E1; [|lia].
  unfold fm2.report.
  destruct (large_files_ul large_files E1) as (large & Hlarge).
  rewrite Hlarge. simpl bind.
  destruct (join_for fm2.old_doc_li old_docs) as [docs|e] eqn:Edocs; simpl.
  - exact I.
  - apply join_for_Raise in Edocs. destruct Edocs as (file & _ & Hraise).
    unfold fm2.old_doc_li in Hraise.
    destruct (File.webViewLink file); simpl in Hraise; congruence.
Qed.

Lemma filemail_fetch_mail (w w' : world) (query : string)
    (size_filter limit : option Z) (fs : list File.t) :
  filemail.fetch_files w query size_filter limit = (fs, w') ->
  gmail w' = gmail w /\ gmail_calls w' = gmail_calls w.
Proof.
  rewrite filemail_fetch_files_unfold. cbn zeta. intros [= _ <-]. now split.
Qed.

Lemma fm2_fetch_mail (w w' : world) (query : string)
    (size_filter limit : option Z) (fs : list File.t) :
  fm2.fetch_files w query size_filter limit = (fs, w') ->
  gmail w' = gmail w /\ gmail_calls w' = gmail_calls w.
Proof.
  rewrite fm2_fetch_files_unfold. cbn zeta. intros [= _ <-]. now split.
Qed.

(** X11: a run of [main] that comes to its end has handed exactly one
    message to the mail service, whatever the service answered, and its
    last line is "Email report sent successfully.": right after the line
    with the message identifier when the message was sent, and just the
    same right after the error line when it was not. *)
Theorem main_success_line (w w' : world) (t12 t24 : string) :
  (filemail.main w t12 t24 = Ok w' ->
   exists text lg,
     gmail_calls w' =
       gmail_calls w
         ++ [mkMessage "me@gmail.com" "Google Drive Report" "html" text] /\
     gmail w' = tl (gmail w) /\
     (forall message_id rest,
         gmail w = Sent message_id :: rest ->
         log w' =
           lg ++ [INFO f{"Message Id: "; message_id};
                  INFO "Email report sent successfully."]) /\
     (forall error rest,
         gmail w = SendError error :: rest ->
         log w' =
           lg ++ [ERROR f{"An error occurred while sending email: "; error};
                  INFO "Email report sent successfully."])) /\
  (fm2.main w t12 t24 = Ok w' ->
   exists text lg,
     gmail_calls w' =
       gmail_calls w
         ++ [mkMessage "danhathway@gmail.com" "Google Drive Report" "html"
               text] /\
     gmail w' = tl (gmail w) /\
     (forall message_id rest,
         gmail w = Sent message_id :: rest ->
         log w' =
           lg ++ [PRINT f{"Message Id: "; message_id};
                  PRINT "Email report sent successfully."]) /\
     (forall error rest,
         gmail w = SendError error :: rest ->
         log w' =
           lg ++ [PRINT f{"An error occurred while sending email: "; error};
                  PRINT "Email report sent successfully."])).
Proof.
  split.
  - unfold filemail.main.
    destruct (filemail.fetch_files (filemail.info w _) _ _ _)
      as [large_files w1] eqn:E1.
    destruct (filemail.fetch_files (filemail.info (filemail.info w1 _) _) _ _ _)
      as [old_docs w2] eqn:E2.
    destruct (filemail.fetch_files (filemail.info (filemail.info w2 _) _) _ _ _)
      as [raw w3] eqn:E3.
    apply filemail_fetch_mail in E1, E2, E3. simpl in E1, E2, E3.
    destruct E1 as [G1 C1], E2 as [G2 C2], E3 as [G3 C3].
    destruct (filemail.process_duplicate_files raw) as [g|e]; simpl;
      [|discriminate].
    destruct (filemail.report large_files old_docs g) as [text|e]; simpl;
      [|discriminate].
    intros [= <-]. unfold filemail.send_email. simpl.
    rewrite G3, G2, G1, C3, C2, C1.
    exists text. eexists.
    destruct (gmail w) as [|[message_id|error] rest]; simpl;
      (split; [reflexivity|]); (split; [reflexivity|]);
      split; intros x rest' [=]; subst;
      rewrite <- app_assoc; reflexivity.
  - unfold fm2.main.
    destruct (fm2.fetch_files w _ _ _) as [large_files w1] eqn:E1.
    destruct (fm2.fetch_files w1 _ _ _) as [old_docs w2] eqn:E2.
    apply fm2_fetch_mail in E1, E2. destruct E1 as [G1 C1], E2 as [G2 C2].
    destruct (fm2.report large_files old_docs) as [text|e]; simpl;
      [|discriminate].
    intros [= <-]. unfold fm2.send_email. simpl.
    rewrite G2, G1, C2, C1.
    exists text. eexists.
    destruct (gmail w) as [|[message_id|error] rest]; simpl;
      (split; [reflexivity|]); (split; [reflexivity|]);
      split; intros x rest' [=]; subst;
      rewrite <- app_assoc; reflexivity.
Qed.

Lemma main_success_line_witness :
  let sent := mkWorld [Page page_three] [] [Sent "m-1"] [] [] in
  let refused := mkWorld [Page page_three] [] [SendError "quota"] [] [] in
  (exists w' lg,
      filemail.main sent "2024-01-01" "2023-01-01" = Ok w' /\
      List.length (gmail_calls w') = 1%nat /\
      log w' = lg ++ [INFO "Message Id: m-1";
                      INFO "Email report sent successfully."]) /\
  (exists w' lg,
      filemail.main refused "2024-01-01" "2023-01-01" = Ok w' /\
      List.length (gmail_calls w') = 1%nat /\
      log w' = lg ++ [ERROR "An error occurred while sending email: quota";
                      INFO "Email report sent successfully."]).
Proof.
  intros sent refused. split.
  - destruct (filemail.main sent "2024-01-01" "2023-01-01") as [w'|e] eqn:Hrun;
      [|vm_compute in Hrun; discriminate Hrun].
    destruct (main_success_line sent w' "2024-01-01" "2023-01-01")
      as (Hfile & _).
    destruct (Hfile Hrun) as (text & lg & Hcalls & _ & Hsent & _).
    exists w', lg. split; [reflexivity|]. split; [now rewrite Hcalls|].
    apply (Hsent "m-1" []). reflexivity.
  - destruct (filemail.main refused "2024-01-01" "2023-01-01") as [w'|e]
      eqn:Hrun; [|vm_compute in Hrun; discriminate Hrun].
    destruct (main_success_line refused w' "2024-01-01" "2023-01-01")
      as (Hfile & _).
    destruct (Hfile Hrun) as (text & lg & Hcalls & _ & _ & Hrefused).
    exists w', lg. split; [reflexivity|]. split; [now rewrite Hcalls|].
    apply (Hrefused "quota" []). reflexivity.
Defined.

(** ** The report: failures and contents *)

Lemma large_file_li_Raise (file : File.t) (e : exn) :
  large_file_li file = Raise e ->
  e = KeyError "size" /\ File.size file = None.
Proof.
  unfold large_file_li. destruct (File.size file); simpl; intros H;
    [discriminate|]. injection H as <-. now split.
Qed.

Lemma large_files_ul_Raise (large_files : list File.t) :
  (exists file, In file large_files /\ File.size file = None) ->
  join_for large_file_li large_files = Raise (KeyError "size").
Proof.
  intros (file & Hin & Hnone). apply join_for_raises.
  - intros x e' _ Hx. now apply large_file_li_Raise in Hx.
  - exists file. split; [exact Hin|].
    unfold large_file_li. now rewrite Hnone.
Qed.

(** X12: the failures of filemail.py's report.  A large-file record
    without a size raises [KeyError], before anything else is looked at;
    otherwise an empty list of parents in a group of more than one member
    raises [IndexError]; a missing size or link in the old documents, and
    anything in a group of one member, raise nothing. *)
Theorem filemail_report_failures (large_files old_docs : list File.t)
    (file_groups : filemail.groups) :
  ((exists file, In file large_files /\ File.size file = None) ->
   filemail.report large_files old_docs file_groups = Raise (KeyError "size")) /\
  (Forall (fun file => File.size file <> None) large_files ->
   (exists k ms f, In (k, ms) file_groups /\ filemail.more_than_one ms = true /\
                   In f ms /\ File.parents f = Some []) ->
   filemail.report large_files old_docs file_groups = Raise IndexError) /\
  (Forall (fun file => File.size file <> None) large_files ->
   (forall k ms f, In (k, ms) file_groups -> filemail.more_than_one ms = true ->
                   In f ms -> File.parents f <> Some []) ->
   exists doc, filemail.report large_files old_docs file_groups = Ok doc).
Proof.
  assert (Hdocs : exists docs,
             join_for filemail.old_doc_li old_docs = Ok docs).
  { apply join_for_Ok. apply Forall_forall. intros file _.
    unfold filemail.old_doc_li. eauto. }
  destruct Hdocs as (docs & Hdocs).
  split; [|split].
  - intros Hmissing. unfold filemail.report.
    now rewrite (large_files_ul_Raise large_files Hmissing).
  - intros Hsized (k & ms & f & Hin & Hmore & Hf & Hempty).
    destruct (large_files_ul large_files Hsized) as (large & Hlarge).
    unfold filemail.report. rewrite Hlarge, Hdocs. simpl bind.
    rewrite (join_for_raises filemail.group_li _ IndexError); trivial.
    + intros entry e' _ Hraise. now apply group_li_Raise in Hraise.
    + exists (k, ms). split; [apply filter_In; now split|].
      unfold filemail.group_li.
      rewrite (join_for_raises filemail.member_li ms IndexError); trivial.
      * intros x e' _ Hx. now apply member_li_Raise in Hx.
      * exists f. split; [exact Hf|].
        unfold filemail.member_li. now rewrite Hempty.
  - intros Hsized Hparents.
    destruct (large_files_ul large_files Hsized) as (large & Hlarge).
    unfold filemail.report. rewrite Hlarge, Hdocs. simpl bind.
    destruct (join_for filemail.group_li _) as [dups|e] eqn:Edups; simpl;
      [eauto|].
    apply join_for_Raise in Edups. destruct Edups as ([k ms] & Hin & Hraise).
    apply filter_In in Hin. destruct Hin as [Hin Hmore].
    apply group_li_Raise in Hraise. destruct Hraise as (_ & f & Hf & Hempty).
    exfalso. now apply (Hparents k ms f).
Qed.

Lemma filemail_report_failures_witness :
  let childless :=
    File.mk "id-4" "movie.mkv" (Some 20000000) "" (Some []) None in
  filemail.report [sample "1" "big.iso" None] []
    [(("movie.mkv", 20000000), [housed; childless])] = Raise (KeyError "size") /\
  filemail.report [housed] []
    [(("movie.mkv", 20000000), [housed; childless])] = Raise IndexError /\
  exists doc,
    filemail.report [housed] [sample "2" "Minutes" None]
      [(("movie.mkv", 20000000), [childless])] = Ok doc.
Proof.
  intros childless.
  split; [|split].
  - apply (filemail_report_failures [sample "1" "big.iso" None] [] _).
    exists (sample "1" "big.iso" None). split; [now left|reflexivity].
  - apply (filemail_report_failures [housed] [] _).
    + repeat constructor; discriminate.
    + exists ("movie.mkv", 20000000), [housed; childless], childless.
      repeat split; simpl; tauto.
  - apply (filemail_report_failures [housed] [sample "2" "Minutes" None] _).
    + repeat constructor; discriminate.
    + intros k ms f [[= <- <-]|[]] Hmore. discriminate Hmore.
Defined.

(** X13: the failures of fm2.py's report.  A large-file record without a
    size raises [KeyError] for "size" first; otherwise an old document
    without a link raises [KeyError] for "webViewLink"; otherwise the
    report is produced. *)
Theorem fm2_report_failures (large_files old_docs : list File.t) :
  ((exists file, In file large_files /\ File.size file = None) ->
   fm2.report large_files old_docs = Raise (KeyError "size")) /\
  (Forall (fun file => File.size file <> None) large_files ->
   (exists file, In file old_docs /\ File.webViewLink file = None) ->
   fm2.report large_files old_docs = Raise (KeyError "webViewLink")) /\
  (Forall (fun file => File.size file <> None) large_files ->
   Forall (fun file => File.webViewLink file <> None) old_docs ->
   exists doc, fm2.report large_files old_docs = Ok doc).
Proof.
  split; [|split].
  - intros Hmissing. unfold fm2.report.
    now rewrite (large_files_ul_Raise large_files Hmissing).
  - intros Hsized (file & Hin & Hnone).
    destruct (large_files_ul large_files Hsized) as (large & Hlarge).
    unfold fm2.report. rewrite Hlarge. simpl bind.
    rewrite (join_for_raises fm2.old_doc_li old_docs (KeyError "webViewLink"));
      trivial.
    + intros x e' _ Hx. unfold fm2.old_doc_li in Hx.
      destruct (File.webViewLink x); simpl in Hx; congruence.
    + exists file. split; [exact Hin|].
      unfold fm2.old_doc_li. now rewrite Hnone.
  - intros Hsized Hlinks.
    destruct (large_files_ul large_files Hsized) as (large & Hlarge).
    unfold fm2.report. rewrite Hlarge. simpl bind.
    destruct (join_for fm2.old_doc_li old_docs) as [docs|e] eqn:Edocs; simpl;
      [eauto|].
    apply join_for_Raise in Edocs. destruct Edocs as (file & Hin & Hraise).
    rewrite Forall_forall in Hlinks. specialize (Hlinks file Hin).
    unfold fm2.old_doc_li in Hraise.
    destruct (File.webViewLink file); simpl in Hraise; congruence.
Qed.

Lemma fm2_report_failures_witness :
  fm2.report [sample "1" "big.iso" None] [sample "2" "Minutes" None] =
    Raise (KeyError "size") /\
  fm2.report [housed] [sample "2" "Minutes" None] =
    Raise (KeyError "webViewLink") /\
  exists doc, fm2.report [housed] [old_doc] = Ok doc.
Proof.
  split; [|split].
  - apply (fm2_report_failures [sample "1" "big.iso" None] _).
    exists (sample "1" "big.iso" None). split; [now left|reflexivity].
  - apply (fm2_report_failures [housed] [sample "2" "Minutes" None]).
    + repeat constructor; discriminate.
    + exists (sample "2" "Minutes" None). split; [now left|reflexivity].
  - apply (fm2_report_failures [housed] [old_doc]).
    + repeat constructor; discriminate.
    + repeat constructor; discriminate.
Defined.

(** [x] is in the report when it is in the piece set on one of its lines. *)
Ltac in_line piece :=
  eapply contains_trans;
  [apply contains_concat with (x := f{"          "; piece}); simpl; tauto
  |apply contains_append_r; simpl].

(** X14: what a report that is produced contains: an item for every large
    file with its name, size and time as they are, an item for every old
    document, and for every member of a group of more than one member an
    item with its id and its first parent, or "unknown" when it has no
    [parents] field. *)
Theorem filemail_report_contents (large_files old_docs : list File.t)
    (file_groups : filemail.groups) (doc : string) :
  filemail.report large_files old_docs file_groups = Ok doc ->
  (forall file, In file large_files ->
     exists size, File.size file = Some size /\
       contains doc f{"<li>"; File.name file; " ("; str size;
                      " bytes, last modified "; File.modifiedTime file;
                      ")</li>"}) /\
  (forall file, In file old_docs ->
     contains doc f{"<li>"; File.name file; " (last modified ";
                    File.modifiedTime file; ")</li>"}) /\
  (forall k ms f, In (k, ms) file_groups -> filemail.more_than_one ms = true ->
     In f ms ->
     exists parent,
       hd_error (get (File.parents f) ["unknown"]) = Some parent /\
       contains doc f{"<li>ID: "; File.id f; " (parent folder: "; parent;
                      ")</li>"}).
Proof.
  unfold filemail.report. intros Hrun.
  destruct (join_for large_file_li large_files) as [large|] eqn:Elarge;
    simpl in Hrun; [|discriminate].
  destruct (join_for filemail.old_doc_li old_docs) as [docs|] eqn:Edocs;
    simpl in Hrun; [|discriminate].
  destruct (join_for filemail.group_li _) as [dups|] eqn:Edups;
    simpl in Hrun; [|discriminate].
  injection Hrun as <-.
  split; [|split].
  - intros file Hin.
    destruct (join_for_contains _ _ _ _ Elarge Hin) as (item & Hitem & Hc).
    unfold large_file_li in Hitem.
    destruct (File.size file) as [size|]; simpl in Hitem; [|discriminate].
    injection Hitem as <-. exists size. split; [reflexivity|].
    now in_line large.
  - intros file Hin.
    destruct (join_for_contains _ _ _ _ Edocs Hin) as (item & Hitem & Hc).
    unfold filemail.old_doc_li in Hitem. injection Hitem as <-.
    now in_line docs.
  - intros k ms f Hin Hmore Hf.
    assert (Hshown : In (k, ms)
               (filter (fun entry => filemail.more_than_one (snd entry))
                  file_groups)) by (apply filter_In; now split).
    destruct (join_for_contains _ _ _ _ Edups Hshown) as (gi & Hgi & Hc1).
    unfold filemail.group_li in Hgi.
    destruct (join_for filemail.member_li ms) as [inner|] eqn:Einner;
      simpl in Hgi; [|discriminate].
    injection Hgi as <-.
    destruct (join_for_contains _ _ _ _ Einner Hf) as (mi & Hmi & Hc2).
    unfold filemail.member_li in Hmi.
    destruct (get (File.parents f) ["unknown"]) as [|parent ps] eqn:Eparents;
      simpl in Hmi; [discriminate|].
    injection Hmi as <-. exists parent. split; [reflexivity|].
    in_line dups.
    eapply contains_trans; [exact Hc1|].
    eapply contains_trans; [|exact Hc2].
    apply contains_concat. simpl. tauto.
Qed.

Lemma filemail_report_contents_witness :
  exists doc,
    filemail.report [housed] [old_doc]
      [(("movie.mkv", 20000000), [orphan; housed])] = Ok doc /\
    contains doc
      "<li>movie.mkv (20000000 bytes, last modified 2021-03-04T05:06:07.000Z)</li>" /\
    contains doc "<li>Minutes (last modified 2019-01-01T00:00:00.000Z)</li>" /\
    contains doc "<li>ID: id-2 (parent folder: folder-9)</li>".
Proof.
  destruct (filemail.report [housed] [old_doc]
              [(("movie.mkv", 20000000), [orphan; housed])]) as [doc|e] eqn:Hrun;
    [|vm_compute in Hrun; discriminate Hrun].
  destruct (filemail_report_contents _ _ _ doc Hrun) as (Hl & Hd & Hg).
  exists doc. split; [reflexivity|]. split; [|split].
  - destruct (Hl housed) as (size & Hsize & Hc); [now left|].
    injection Hsize as <-. exact Hc.
  - apply (Hd old_doc). now left.
  - destruct (Hg ("movie.mkv", 20000000) [orphan; housed] housed)
      as (parent & Hp & Hc); [now left|reflexivity|simpl; tauto|].
    injection Hp as <-. exact Hc.
Defined.

(** ** The groups: their order and what is reported *)







(** X16: a record is reported as a duplicate exactly when at least two
    records of the input, itself included, have its name and its size. *)
Theorem duplicates_reported (fs : list File.t) :
  Forall (fun file => File.size file <> None) fs ->
  exists g : filemail.groups,
    filemail.process_duplicate_files fs = Ok g /\
    forall file,
      (exists ms, In ms (filemail.duplicate_selection g) /\ In file ms) <->
      In file fs /\
      (1 < List.length (filter (has_key (file_key file)) fs))%nat.
Proof.
  intros Hsized.
  destruct (process_sized fs Hsized) as (g & Hrun & Hnd & Hgroup & Hin & _).
  exists g. split; [exact Hrun|]. intros file. split.
  - intros (ms & Hsel & Hfile).
    apply filter_In in Hsel. destruct Hsel as [Hval Hmore].
    apply in_map_iff in Hval. destruct Hval as ([k ms'] & Heq & Hkms).
    simpl in Heq. subst ms'.
    destruct (Hgroup k ms Hkms) as [Hms _].
    rewrite Hms in Hfile. apply filter_In in Hfile.
    destruct Hfile as [Hfs Hkey].
    assert (k = file_key file).
    { apply has_key_spec in Hkey. destruct Hkey as [Hn Hs].
      unfold file_key. rewrite Hs. destruct k. simpl in *. congruence. }
    subst k. split; [exact Hfs|].
    rewrite <- Hms. now apply more_than_one_spec.
  - intros [Hfs Hmany].
    rewrite Forall_forall in Hsized. pose proof (Hsized file Hfs) as Hsize.
    assert (Hkey : has_key (file_key file) file = true).
    { apply has_key_spec. unfold file_key.
      destruct (File.size file); [now split|contradiction]. }
    exists (filter (has_key (file_key file)) fs). split.
    + apply filter_In. split; [|now apply more_than_one_spec].
      apply in_map_iff. exists (file_key file, filter (has_key (file_key file)) fs).
      split; [reflexivity|]. now apply Hin with file.
    + apply filter_In. now split.
Qed.

Lemma duplicates_reported_witness :
  let fs := [report_docx "1"; notes_txt "2"; sample "3" "Only.pdf" (Some 42);
             report_docx "4"] in
  exists g : filemail.groups,
    filemail.process_duplicate_files fs = Ok g /\
    (exists ms, In ms (filemail.duplicate_selection g) /\
                In (report_docx "4") ms) /\
    ~ (exists ms, In ms (filemail.duplicate_selection g) /\
                  In (notes_txt "2") ms).
Proof.
  intros fs.
  destruct (duplicates_reported fs) as (g & Hrun & Hiff).
  - repeat constructor; discriminate.
  - exists g. split; [exact Hrun|]. split.
    + apply Hiff. split; [simpl; tauto|]. vm_compute. lia.
    + intros H. apply Hiff in H. destruct H as [_ H]. vm_compute in H. lia.
Defined.

(** ** authenticate *)

(** X17: after [authenticate] has returned credentials, token.pickle holds
    them; and when a library call raised, token.pickle is as it was. *)
Theorem authenticate_caches (e e' : auth.env)
    (returned : option auth.Credentials) :
  auth.authenticate e = (returned, e') ->
  match returned with
  | Some creds => auth.token_pickle e' = Some creds
  | None => auth.token_pickle e' = auth.token_pickle e
  end.
Proof.
  unfold auth.authenticate.
  destruct (auth.token_pickle e) as [c|] eqn:Efile.
  - destruct (auth.valid c); simpl.
    + intros [= <- <-]. exact Efile.
    + destruct (auth.expired c && truthy_str (auth.refresh_token c)).
      * destruct (auth.refresh e c); intros [= <- <-]; simpl; trivial.
      * destruct (auth.run_local_server e); intros [= <- <-]; simpl; trivial.
  - simpl. destruct (auth.run_local_server e); intros [= <- <-]; simpl; trivial.
Qed.

Lemma authenticate_caches_witness :
  let stored := auth.mkCredentials "old" false true (Some "r-1") in
  let fresh := auth.mkCredentials "new" true false (Some "r-1") in
  let e := auth.mkEnv (Some stored) (fun _ => Some fresh) None [] in
  auth.token_pickle (snd (auth.authenticate e)) = Some fresh.
Proof.
  intros stored fresh e.
  apply (authenticate_caches e (snd (auth.authenticate e)) (Some fresh)).
  reflexivity.
Defined.

(** X19: when token.pickle holds credentials that are valid, or expired
    with a refresh token, [authenticate] never starts the consent flow:
    not even when the refresh raises, in which case it returns nothing and
    writes nothing. *)
Theorem authenticate_no_consent (e : auth.env) (stored : auth.Credentials) :
  auth.token_pickle e = Some stored ->
  auth.valid stored = true \/
  (auth.expired stored = true /\
   truthy_str (auth.refresh_token stored) = true) ->
  let out := auth.authenticate e in
  (exists taken,
      auth.steps (snd out) = auth.steps e ++ taken /\
      ~ In auth.LocalServer taken) /\
  (auth.valid stored = false -> auth.refresh e stored = None ->
   fst out = None /\ auth.steps (snd out) = auth.steps e ++ [auth.Refreshed stored]).
Proof.
  intros Hfile Hcase. unfold auth.authenticate. rewrite Hfile.
  destruct (auth.valid stored) eqn:Hvalid; simpl.
  - split.
    + exists []. rewrite app_nil_r. split; [reflexivity|intros []].
    + discriminate.
  - destruct Hcase as [Hcase|[Hexpired Htoken]]; [discriminate|].
    rewrite Hexpired, Htoken. simpl.
    destruct (auth.refresh e stored) as [fresh|]; simpl.
    + split; [|discriminate].
      exists [auth.Refreshed stored; auth.Dumped fresh].
      split; [reflexivity|]. intros [H|[H|[]]]; discriminate.
    + split; [|now split].
      exists [auth.Refreshed stored].
      split; [reflexivity|]. intros [H|[]]; discriminate.
Qed.

Lemma authenticate_no_consent_witness :
  let stored := auth.mkCredentials "old" false true (Some "r-1") in
  let e := auth.mkEnv (Some stored) (fun _ => None)
             (Some (auth.mkCredentials "consented" true false None)) [] in
  fst (auth.authenticate e) = None /\
  auth.steps (snd (auth.authenticate e)) = [auth.Refreshed stored].
Proof.
  intros stored e.
  destruct (authenticate_no_consent e stored) as (_ & Hfail).
  - reflexivity.
  - right. split; reflexivity.
  - apply Hfail; reflexivity.
Defined.
